(** * flexcore: ports, dataflow nodes and the ownership forest

    A shallow embedding of
      - src/ports/event_ports.hpp      (event_in_port, event_out_port,
                                        event_proxy, detail::connect_impl)
      - src/nodes/list_manipulation.hpp (list_splitter, list_collector)
      - src/nodes/state_nodes.hpp       (merge_node)
      - flexcore/extended/base_node.hpp (owning_base_node, erase_with_subtree)

    Side effects of user supplied callables (std::function objects) act on
    an ambient state of type [W]; a callable is a function that threads [W].
    Objects held through a std::shared_ptr live in an explicit store and are
    named by their address, so that copies of a port alias one vector.

    The first half of the file holds the definitions, one module per source
    file; the second half holds the lemmas and theorems about them. *)

From stdpp Require Import base list numbers sorting strings.

(** * Part I: definitions *)

(** ** src/ports/event_ports.hpp *)

Module EventPorts.

(** [std::function<void(event_t)>]: called for its effect on [W]. A handler
    does not reach the handler vectors themselves: registration is expected
    to happen before a source is fired, not from within a fire. *)
Definition handler_t (W event_t : Type) : Type := event_t → W → W.

(** The heap cells holding the [std::vector<handler_t<event_t>>] objects
    that event_out_ports point to, in allocation order. *)
Abbreviation handler_store W event_t := (list (list (handler_t W event_t))).

(** A connectable that is neither a source nor a sink, such as a lambda put
    between a source and a sink: it maps a value to a value, possibly with an
    effect. *)
Definition callable (W A B : Type) : Type := A → W → B * W.

(** [struct event_in_port]: wraps one handler. *)
Record event_in_port (W event_t : Type) : Type :=
  { event_handler : handler_t W event_t }.
Arguments event_handler {W event_t} _.

(** [struct event_out_port]: its only member is the shared pointer
    [event_handlers]; the pointee lives in the handler store at the address
    the pointer holds. *)
Record event_out_port (event_t : Type) : Type :=
  { event_handlers : nat }.
Arguments event_handlers {event_t} _.

(** [struct event_proxy<source_t, sink_t>] for an event_out_port source and a
    stored connectable from the source's payload [event_t] to [B]. *)
Record event_proxy (W event_t B : Type) : Type :=
  { source : event_out_port event_t;
    stored_sink : callable W event_t B }.
Arguments source {W event_t B} _.
Arguments stored_sink {W event_t B} _.

(** The right operand of a connect, by its capability tag. *)
Inductive operand (W event_t : Type) : Type :=
| is_sink (sink : event_in_port W event_t)
    (* is_event_sink<sink_t>::value *)
| not_sink {B : Type} (sink : callable W event_t B).
    (* !is_event_sink<sink_t>::value *)
Arguments is_sink {W event_t} _.
Arguments not_sink {W event_t B} _.

(** What a connect returns: [void], or an [event_proxy]. *)
Inductive connect_result (W event_t : Type) : Type :=
| returns_void
| returns_proxy {B : Type} (proxy : event_proxy W event_t B).
Arguments returns_void {W event_t}.
Arguments returns_proxy {W event_t B} _.

Section ports.
Context {W : Type}.

(** [event_in_port::operator()]: [event_handler(in_event);] *)
Definition call {event_t} (p : event_in_port W event_t) (in_event : event_t)
  : W → W :=
  event_handler p in_event.

Section out_port.
Context {event_t : Type}.
Implicit Types (σ : handler_store W event_t) (p : event_out_port event_t).

(** A port on a newly allocated, empty vector of its own. This is what
    [list_splitter::out] gets when it makes an entry, from the constructor of
    [event_source] (ports/ports.hpp, not part of the sources), for which the
    event_out_port stands. It is not the default construction of
    [event_out_port] as event_ports.hpp has it: the member initialiser there
    passes the pointer type [handler_vector] to [std::make_shared], which
    gives a pointer to a pointer and so no value for the member. *)
Definition new_port σ : event_out_port event_t * handler_store W event_t :=
  ({| event_handlers := length σ |}, σ ++ [[]]).

(** The implicit copy constructor copies the pointer, not the vector. *)
Definition copy_port p : event_out_port event_t :=
  {| event_handlers := event_handlers p |}.

(** [*event_handlers] *)
Definition targets σ p : list (handler_t W event_t) :=
  default [] (σ !! event_handlers p).

(** [fire]: [for (auto target : *event_handlers) target(event);] *)
Definition fire p (event : event_t) σ (w : W) : W :=
  foldl (λ w target, target event w) w (targets σ p).

(** [connect]: [event_handlers->push_back(new_handler);] *)
Definition connect p (new_handler : handler_t W event_t) σ
  : handler_store W event_t :=
  alter (λ v, v ++ [new_handler]) (event_handlers p) σ.

(** A port whose vector has been allocated in [σ]; every port value of a
    running program is one. *)
Definition allocated σ p : Prop := event_handlers p < length σ.

(** Registering a list of handlers one after the other. *)
Definition connect_all p (hs : list (handler_t W event_t)) σ
  : handler_store W event_t :=
  foldl (λ σ h, connect p h σ) σ hs.
End out_port.

(** An event sink seen as a connectable returning nothing, and a connectable
    stored into a [std::function<void(event_t)>], which drops its result. *)
Definition sink_callable {A} (s : event_in_port W A) : callable W A unit :=
  λ a w, (tt, call s a w).
Definition as_handler {A B} (f : callable W A B) : handler_t W A :=
  λ a w, (f a w).2.

Section dispatch.
(** The primary template of [fc::connect] is declared in core/connection.hpp,
    which is not part of the sources: it joins two plain connectables into one
    connection object. It is a parameter here. *)
Variable connection : ∀ A B C, callable W A B → callable W B C → callable W A C.
Arguments connection {A B C} _ _.

Context {event_t : Type}.

(** [detail::connect_impl] for an event source on the left: the
    specialisation with [!is_event_sink<sink_t>] builds a proxy, the one with
    [is_event_sink<sink_t>] calls [source.connect(sink)]. [operator()] takes
    the source by value, so it works on a copy of the caller's port. *)
Definition connect_impl_source (source : event_out_port event_t)
    (sink : operand W event_t) (σ : handler_store W event_t)
  : connect_result W event_t * handler_store W event_t :=
  let source := copy_port source in
  match sink with
  | not_sink f =>
      (returns_proxy {| source := copy_port source; stored_sink := f |}, σ)
  | is_sink s => (returns_void, connect source (call s) σ)
  end.

(** [event_proxy::connect], both overloads. *)
Definition proxy_connect {B} (this : event_proxy W event_t B)
    (sink : operand W B) (σ : handler_store W event_t)
  : connect_result W event_t * handler_store W event_t :=
  match sink with
  | not_sink g =>
      let connection := connection (stored_sink this) g in
      (returns_proxy
         {| source := copy_port (source this); stored_sink := connection |}, σ)
  | is_sink s =>
      let tmp := connection (stored_sink this) (sink_callable s) in
      (returns_void, connect (source this) (as_handler tmp) σ)
  end.

(** [detail::connect_impl] for an event_proxy on the left:
    [return source.connect(sink);] *)
Definition connect_impl_proxy {B} (source : event_proxy W event_t B)
    (sink : operand W B) (σ : handler_store W event_t)
  : connect_result W event_t * handler_store W event_t :=
  proxy_connect source sink σ.
End dispatch.
End ports.

(** The port values that denote one port: the value itself and the copies
    made of it, directly or through other copies. *)
Inductive copy_of {event_t} (p : event_out_port event_t)
  : event_out_port event_t → Prop :=
| copy_of_self : copy_of p p
| copy_of_copy q : copy_of p q → copy_of p (copy_port q).

(** A handler that records its own number and the event it is given. *)
Definition recorder {event_t} (i : nat)
  : handler_t (list (nat * event_t)) event_t :=
  λ e log, log ++ [(i, e)].

(** A connection of two connectables that runs the left one and hands its
    result to the right one, threading the effects left to right. *)
Definition compose_connection {W A B C}
    (f : callable W A B) (g : callable W B C) : callable W A C :=
  λ a w, let '(b, w') := f a w in g b w'.

End EventPorts.

(** ** src/nodes/list_manipulation.hpp *)

Module ListSplitter.
Import EventPorts.

(** [size_t], taken as 64 bits wide, and [++] on it. *)
Definition SIZE_MAX : Z := 2 ^ 64 - 1.
Definition size_t_incr (n : Z) : Z := (n + 1) `mod` 2 ^ 64.

Section list_splitter.
Context {W value_t predicate_result_t : Type}.

(** [std::less<predicate_result_t>], the comparison the [std::map] orders its
    keys with. *)
Variable less : predicate_result_t → predicate_result_t → bool.

(** [out_range_t]: the iterator range over a [std::vector<value_t>], taken
    with the elements it spans at the time it is made. *)
Abbreviation out_range_t := (list value_t).

(** [struct entry_t]. The [event_source] of ports/ports.hpp is not part of the
    sources; the event_out_port of event_ports.hpp stands for it. *)
Record entry_t : Type :=
  { port : event_out_port out_range_t;
    data : list value_t }.

(** [std::map<predicate_result_t, entry_t>]: the pairs in iteration order,
    which the map keeps ascending by key. *)
Abbreviation entries_t := (list (predicate_result_t * entry_t)).

(** [std::map::find]: go to the first key that is not less than [k]; it is
    a hit unless [k] is less than that key. *)
Fixpoint map_find (k : predicate_result_t) (m : entries_t) : option entry_t :=
  match m with
  | [] => None
  | (k', e) :: m' =>
      if less k' k then map_find k m'
      else if less k k' then None
      else Some e
  end.

(** [std::map::insert]: put the pair at its place in key order; a map that
    has the key already is left as it is. *)
Fixpoint map_insert (k : predicate_result_t) (e : entry_t) (m : entries_t)
  : entries_t :=
  match m with
  | [] => [(k, e)]
  | (k', e') :: m' =>
      if less k' k then (k', e') :: map_insert k e m'
      else if less k k' then (k, e) :: m
      else m
  end.

(** An update through the iterator that [find] returned. *)
Fixpoint map_alter (f : entry_t → entry_t) (k : predicate_result_t)
    (m : entries_t) : entries_t :=
  match m with
  | [] => []
  | (k', e) :: m' =>
      if less k' k then (k', e) :: map_alter f k m'
      else if less k k' then m
      else (k', f e) :: m'
  end.

(** [class list_splitter]: the drop counter behind [out_num_dropped], the
    map and the predicate. The [in] sink only forwards to [receive]. *)
Record list_splitter : Type :=
  { out_num_dropped : Z;
    entries : entries_t;
    predicate : value_t → predicate_result_t }.

(** The constructor. The counter's first value is set in
    ports/fancy_ports.hpp, which is not part of the sources; it is taken to
    be zero. *)
Definition list_splitter_ctor (pred : value_t → predicate_result_t)
  : list_splitter :=
  {| out_num_dropped := 0; entries := []; predicate := pred |}.

(** [out(value)]: find the entry, make it with a new port if there is
    none, and hand out a copy of the entry's port. *)
Definition out (value : predicate_result_t) (this : list_splitter)
    (σ : handler_store W out_range_t)
  : event_out_port out_range_t * list_splitter * handler_store W out_range_t :=
  match map_find value (entries this) with
  | Some it => (copy_port (port it), this, σ)
  | None =>
      let '(p, σ') := new_port σ in
      let entry := {| port := p; data := [] |} in
      (copy_port p,
       {| out_num_dropped := out_num_dropped this;
          entries := map_insert value entry (entries this);
          predicate := predicate this |},
       σ')
  end.

(** The body of the first loop of [receive], for one element. *)
Definition sort_element (this : list_splitter) (x : value_t) : list_splitter :=
  let p := predicate this x in
  match map_find p (entries this) with
  | Some _ =>
      {| out_num_dropped := out_num_dropped this;
         entries :=
           map_alter (λ e, {| port := port e; data := data e ++ [x] |})
             p (entries this);
         predicate := predicate this |}
  | None =>
      {| out_num_dropped := size_t_incr (out_num_dropped this);
         entries := entries this;
         predicate := predicate this |}
  end.

(** The second loop of [receive]: every entry, in the map's order, fires
    its port with its buffer and clears the buffer. *)
Fixpoint send (m : entries_t) (σ : handler_store W out_range_t) (w : W)
  : entries_t * W :=
  match m with
  | [] => ([], w)
  | (k, e) :: m' =>
      let w1 := fire (port e) (data e) σ w in
      let e' := {| port := port e; data := [] |} in
      let '(m'', w2) := send m' σ w1 in
      ((k, e') :: m'', w2)
  end.

(** [receive(range)] *)
Definition receive (range : list value_t) (this : list_splitter)
    (σ : handler_store W out_range_t) (w : W) : list_splitter * W :=
  let sorted := foldl sort_element this range in
  let '(m, w') := send (entries sorted) σ w in
  ({| out_num_dropped := out_num_dropped sorted;
      entries := m;
      predicate := predicate sorted |}, w').

(** The splitters a program can hold: built by the constructor, then used
    through [out] and through firings of [in]. *)
Inductive reachable (pred : value_t → predicate_result_t)
  : list_splitter → Prop :=
| reachable_ctor : reachable pred (list_splitter_ctor pred)
| reachable_out this value σ :
    reachable pred this → reachable pred (out value this σ).1.2
| reachable_receive this range σ w :
    reachable pred this → reachable pred (receive range this σ w).1.

(** Two keys neither of which is less than the other. *)
Definition same_key (a b : predicate_result_t) : bool :=
  negb (less a b) && negb (less b a).

(** The elements of [range] that the predicate maps to key [k]. *)
Definition with_key (pred : value_t → predicate_result_t)
    (k : predicate_result_t) (range : list value_t) : list value_t :=
  filter (λ x, same_key (pred x) k = true) range.
(** The invariant of the [std::map]: keys strictly ascending. *)
Definition ascending (m : entries_t) : Prop :=
  StronglySorted (λ a b, less a b = true) m.*1.

(** Between two firings all buffers are empty. *)
Definition buffers_empty (m : entries_t) : Prop :=
  Forall (λ ke, data ke.2 = []) m.

Definition wf (this : list_splitter) : Prop :=
  ascending (entries this) ∧ buffers_empty (entries this).

(** [map_alter], entry by entry. *)
Definition alter_at (f : entry_t → entry_t) (k : predicate_result_t)
    (ke : predicate_result_t * entry_t) : predicate_result_t * entry_t :=
  (ke.1, if same_key k ke.1 then f ke.2 else ke.2).

(** What the second loop leaves of an entry. *)
Definition clear_entry (ke : predicate_result_t * entry_t)
  : predicate_result_t * entry_t :=
  (ke.1, {| port := port ke.2; data := [] |}).

(** What the first loop adds to the entry of key [ke.1]. *)
Definition fill_entry (pred : value_t → predicate_result_t)
    (range : list value_t) (ke : predicate_result_t * entry_t)
  : predicate_result_t * entry_t :=
  (ke.1, {| port := port ke.2; data := data ke.2 ++ with_key pred ke.1 range |}).

(** The elements of [range] whose key has no entry in [m]. *)
Definition unmatched (pred : value_t → predicate_result_t) (m : entries_t)
    (range : list value_t) : list value_t :=
  filter (λ x, map_find (pred x) m = None) range.

(** A splitter together with the store its ports live in, as a program
    brings them about: the splitter is constructed, outputs are requested,
    handlers are connected to ports, other ports are constructed, and the
    input is fired. *)
Inductive session (pred : value_t → predicate_result_t)
  : list_splitter → handler_store W out_range_t → Prop :=
| session_ctor σ : session pred (list_splitter_ctor pred) σ
| session_out this σ value :
    session pred this σ →
    session pred (out value this σ).1.2 (out value this σ).2
| session_connect this σ p h :
    session pred this σ → session pred this (connect p h σ)
| session_new_port this σ :
    session pred this σ → session pred this (new_port σ).2
| session_receive this σ range w :
    session pred this σ → session pred (receive range this σ w).1 σ.

(** What one firing delivers, output by output in the order of the map. *)
Definition delivered (pred : value_t → predicate_result_t) (m : entries_t)
    (range : list value_t) : list (list value_t) :=
  (λ ke, with_key pred ke.1 range) <$> m.

(** The ports of the entries are allocated, each with a vector of its
    own. *)
Definition separate_ports (m : entries_t) (σ : handler_store W out_range_t)
  : Prop :=
  Forall (λ ke, allocated σ (port ke.2)) m
  ∧ NoDup ((λ ke, event_handlers (port ke.2)) <$> m).
End list_splitter.

Arguments entry_t : clear implicits.
Arguments list_splitter : clear implicits.

(** A splitter under observation: outputs are requested for the keys [ks]
    in the order given, and each output gets a handler that records the key
    and the range delivered. *)
Definition observed {value_t predicate_result_t}
    (less : predicate_result_t → predicate_result_t → bool)
    (pred : value_t → predicate_result_t) (ks : list predicate_result_t)
  : list_splitter value_t predicate_result_t
    * handler_store (list (predicate_result_t * list value_t)) (list value_t) :=
  foldl (λ '(this, σ) k,
           let '(p, this', σ') := out less k this σ in
           (this', connect p (λ r log, log ++ [(k, r)]) σ'))
        (list_splitter_ctor pred, []) ks.

(** The keys in the order in which they are first seen in [ks]. *)
Fixpoint first_seen (ks : list Z) : list Z :=
  match ks with
  | [] => []
  | k :: ks' => k :: filter (λ k', k' ≠ k) (first_seen ks')
  end.

(** The statement that the outputs fire in the order in which their keys
    were first requested, for integer keys. *)
Definition fires_in_first_seen_order : Prop :=
  ∀ (pred : Z → Z) (ks : list Z) (range : list Z),
    let '(this, σ) := observed Z.ltb pred ks in
    (receive Z.ltb range this σ []).2.*1 = first_seen ks.

End ListSplitter.

Module ListCollector.

(** [class list_collector] *)
Record list_collector (value_t : Type) : Type :=
  { buffer_collect : list value_t;
    buffer_state : list value_t }.
Arguments buffer_collect {value_t} _.
Arguments buffer_state {value_t} _.

Section list_collector.
Context {value_t : Type}.

(** The constructor: both vectors are default constructed. *)
Definition list_collector_ctor : list_collector value_t :=
  {| buffer_collect := []; buffer_state := [] |}.

(** [receive]:
    [buffer_collect.insert(buffer_collect.end(), begin(range), end(range));] *)
Definition receive (range : list value_t) (this : list_collector value_t)
  : list_collector value_t :=
  {| buffer_collect := buffer_collect this ++ range;
     buffer_state := buffer_state this |}.

(** [get_state]: clear [buffer_state], swap it with [buffer_collect] and
    return the range over [buffer_state]. *)
Definition get_state (this : list_collector value_t)
  : list value_t * list_collector value_t :=
  let cleared := {| buffer_collect := buffer_collect this;
                    buffer_state := [] |} in
  let swapped := {| buffer_collect := buffer_state cleared;
                    buffer_state := buffer_collect cleared |} in
  (buffer_state swapped, swapped).

(** What a client does with a collector: fire its sink with a range, or
    pull its state output. *)
Inductive use : Type :=
| fire_in (range : list value_t)
| pull_out.

(** Run the uses in order; the results of the pulls are returned in the
    order of the pulls. *)
Fixpoint run (uses : list use) (this : list_collector value_t)
  : list (list value_t) * list_collector value_t :=
  match uses with
  | [] => ([], this)
  | fire_in range :: uses' => run uses' (receive range this)
  | pull_out :: uses' =>
      let '(pulled, this') := get_state this in
      let '(rest, final) := run uses' this' in
      (pulled :: rest, final)
  end.

(** The ranges the uses fire with, in order. *)
Fixpoint fired (uses : list use) : list (list value_t) :=
  match uses with
  | [] => []
  | fire_in range :: uses' => range :: fired uses'
  | pull_out :: uses' => fired uses'
  end.
End list_collector.

End ListCollector.

(** ** src/nodes/state_nodes.hpp *)

Module StateNodes.

Section merge_node.
(** The arguments of the operation are taken to be of one type [T]. *)
Context {W T R : Type}.

(** [std::function<T()>]: what a state sink is connected to. A pull yields
    a value and may have an effect. *)
Definition source_t : Type := W → T * W.

(** Modelled from the spec: [state_sink] (ports/states/state_sink.hpp is not
    part of the sources). "A state sink holds a pull function yielding the
    upstream current value on demand." The example in the comment of
    [merge_node] connects through the copy that [in<i>()] returns, so the
    connection is shared by the copies of a sink: a sink is the address of
    its connection cell, which is empty until the sink is connected. *)
Record state_sink : Type := { con : nat }.

Abbreviation sink_store := (list (option source_t)).

Definition new_sink (σ : sink_store) : state_sink * sink_store :=
  ({| con := length σ |}, σ ++ [None]).

(** [source >> sink] *)
Definition connect (source : source_t) (sink : state_sink) (σ : sink_store)
  : sink_store :=
  <[con sink := Some source]> σ.

(** [state_sink::get]: pull the connected source; there is no result when
    nothing is connected. *)
Definition get (sink : state_sink) (σ : sink_store) (w : W) : option (T * W) :=
  match σ !! con sink with
  | Some (Some source) => Some (source w)
  | _ => None
  end.

(** [result (args...)] with [n] arguments. *)
Fixpoint signature (n : nat) : Type :=
  match n with
  | 0 => R
  | S n' => T → signature n'
  end.

(** The call [op(v0, ..., vn-1)]. *)
Fixpoint call_op (n : nat) : signature n → list T → option R :=
  match n with
  | 0 => λ r vs, match vs with [] => Some r | _ => None end
  | S n' => λ f vs,
      match vs with
      | v :: vs' => call_op n' (f v) vs'
      | [] => None
      end
  end.

(** [struct merge_node<operation, result (args...)>] *)
Record merge_node : Type :=
  { nr_of_arguments : nat;
    in_ports : list state_sink;
    op : signature nr_of_arguments }.

(** The constructor: one sink per argument, then the operation. The
    [static_assert] rules out [n = 0] at compile time. *)
Fixpoint new_sinks (n : nat) (σ : sink_store) : list state_sink * sink_store :=
  match n with
  | 0 => ([], σ)
  | S n' =>
      let '(sink, σ1) := new_sink σ in
      let '(sinks, σ2) := new_sinks n' σ1 in
      (sink :: sinks, σ2)
  end.

Definition merge (n : nat) (o : signature n) (σ : sink_store)
  : merge_node * sink_store :=
  let '(sinks, σ') := new_sinks n σ in
  ({| nr_of_arguments := n; in_ports := sinks; op := o |}, σ').

(** [in<i>()]: a copy of the [i]-th sink. *)
Definition in_ (i : nat) (this : merge_node) : option state_sink :=
  in_ports this !! i.

(** The argument expressions [std::get<index>(tup).get()...] of the call in
    [invoke_helper]. C++ leaves the order in which the arguments of a call
    are evaluated to the compiler; [order] lists the argument indices in the
    order in which they are evaluated. Each value is kept at the place of its
    argument. *)
Fixpoint pull_arguments (order : list nat) (tup : list state_sink)
    (σ : sink_store) (values : list (option T)) (w : W)
  : option (list (option T) * W) :=
  match order with
  | [] => Some (values, w)
  | index :: order' =>
      match tup !! index with
      | Some sink =>
          match get sink σ w with
          | Some (v, w') =>
              pull_arguments order' tup σ (<[index := Some v]> values) w'
          | None => None
          end
      | None => None
      end
  end.

(** All values, if every argument has been evaluated. *)
Fixpoint all_values (values : list (option T)) : option (list T) :=
  match values with
  | [] => Some []
  | Some v :: values' =>
      match all_values values' with
      | Some vs => Some (v :: vs)
      | None => None
      end
  | None :: _ => None
  end.

(** [invoke_helper]: [return op(std::get<index>(tup).get()...);] *)
Definition invoke_helper (order : list nat) (this : merge_node)
    (tup : list state_sink) (σ : sink_store) (w : W) : option (R * W) :=
  match
    pull_arguments order tup σ (replicate (nr_of_arguments this) None) w
  with
  | Some (values, w') =>
      match all_values values with
      | Some vs =>
          match call_op (nr_of_arguments this) (op this) vs with
          | Some r => Some (r, w')
          | None => None
          end
      | None => None
      end
  | None => None
  end.

(** [operator()]: [return invoke_helper(in_ports, index_sequence);] *)
Definition invoke (order : list nat) (this : merge_node) (σ : sink_store)
    (w : W) : option (R * W) :=
  invoke_helper order this (in_ports this) σ w.

(** The orders a compiler may choose for [n] arguments. *)
Definition evaluation_order (n : nat) (order : list nat) : Prop :=
  order ≡ₚ seq 0 n.
End merge_node.

Arguments source_t : clear implicits.
Arguments merge_node : clear implicits.

(** A source that yields [v] and records that sink [i] was pulled. *)
Definition recording_source {T} (i : nat) (v : T) : source_t (list nat) T :=
  λ log, (v, log ++ [i]).

(** A merge node of two arguments whose sinks are connected to recording
    sources yielding [a] and [b]; the pulls of one invocation under the
    evaluation order [order]. *)
Definition recorded_pulls (order : list nat) (a b : Z) : option (list nat) :=
  let '(node, σ) := merge (W:=list nat) 2 Z.mul [] in
  match in_ 0 node, in_ 1 node with
  | Some in0, Some in1 =>
      let σ := connect (recording_source 0 a) in0 σ in
      let σ := connect (recording_source 1 b) in1 σ in
      snd <$> invoke order node σ []
  | _, _ => None
  end.

(** The statement that every invocation pulls the sinks in argument
    order, whatever order of evaluation the compiler has chosen. *)
Definition pulls_in_argument_order : Prop :=
  ∀ order, evaluation_order 2 order → recorded_pulls order 3 4 = Some [0; 1].

End StateNodes.

(** ** flexcore/extended/base_node.hpp *)

Module BaseNode.

(** *** The ordered-tree container *)

(** The two visits the iteration of a forest pays to a node. *)
Inductive edge : Type := forest_leading_edge | forest_trailing_edge.

Global Instance edge_eq_dec : EqDecision edge.
Proof. solve_decision. Defined.

(** An iterator into a forest: a node, named by the address of its cell,
    and an edge; or the end. *)
Definition position : Type := nat * edge.
Abbreviation iterator := (option position).

(** Modelled from the spec: [adobe::forest] is an external container, not
    part of the sources. The specification asks of it: "insertion of a value
    as a child of a given position returning an iterator to the inserted
    value, leading_of/trailing_of bounds of a subtree, and half-open-range
    erase", plus standard iteration. A forest is kept as what its iteration
    visits: every node twice, on its leading edge before its children and on
    its trailing edge after them; the values are kept by cell. *)
Record forest (T : Type) : Type :=
  { fullorder : list position;
    content : nat → option T;
    next_cell : nat }.
Arguments fullorder {T} _.
Arguments content {T} _.
Arguments next_cell {T} _.

Definition leading_of (i : position) : position := (i.1, forest_leading_edge).
Definition trailing_of (i : position) : position := (i.1, forest_trailing_edge).

(** The iteration from [i] on, [i] included. *)
Fixpoint seek (i : position) (order : list position) : list position :=
  match order with
  | [] => []
  | j :: rest => if decide (j = i) then order else seek i rest
  end.

(** The iteration up to [last], [last] excluded. *)
Fixpoint until (last : iterator) (order : list position) : list position :=
  match order with
  | [] => []
  | j :: rest => if decide (Some j = last) then [] else j :: until last rest
  end.

(** The half-open range [[first, last)]. *)
Definition range (first last : iterator) (order : list position)
  : list position :=
  match first with
  | Some i => until last (seek i order)
  | None => []
  end.

(** [++i] *)
Definition next (order : list position) (i : position) : iterator :=
  match seek i order with
  | _ :: j :: _ => Some j
  | _ => None
  end.

(** The nodes of a stretch of the iteration: those whose leading edge is in
    it. *)
Definition nodes_of (order : list position) : list nat :=
  (filter (λ i, i.2 = forest_leading_edge) order).*1.

(** What lies between the two edges of node [n]. *)
Definition inside (n : nat) (order : list position) : list position :=
  until (Some (n, forest_trailing_edge))
    (tail (seek (n, forest_leading_edge) order)).

(** The nodes below [n]: their edges lie between the edges of [n]. *)
Definition descendants (n : nat) (order : list position) : list nat :=
  nodes_of (inside n order).

(** The nodes whose trailing edge is in a stretch. *)
Definition closed (order : list position) : list nat :=
  (filter (λ i, i.2 = forest_trailing_edge) order).*1.

(** The nodes of a stretch that are not inside another node of it. *)
Fixpoint top_level (depth : nat) (order : list position) : list nat :=
  match order with
  | [] => []
  | (n, forest_leading_edge) :: rest =>
      match depth with
      | 0 => n :: top_level (S depth) rest
      | S _ => top_level (S depth) rest
      end
  | (n, forest_trailing_edge) :: rest => top_level (Nat.pred depth) rest
  end.

(** The children of [n], first to last. *)
Definition children (n : nat) (order : list position) : list nat :=
  top_level 0 (inside n order).

(** The edges are properly nested: reading the iteration with a stack of
    the nodes that are open, every trailing edge closes the node on top. *)
Fixpoint nesting (open : list nat) (order : list position)
  : option (list nat) :=
  match order with
  | [] => Some open
  | (n, forest_leading_edge) :: rest => nesting (n :: open) rest
  | (n, forest_trailing_edge) :: rest =>
      match open with
      | m :: open' => if decide (n = m) then nesting open' rest else None
      | [] => None
      end
  end.

Section forest.
Context {T : Type}.
Implicit Types (f : forest T).

Definition size f : nat := length (nodes_of (fullorder f)).

(** A forest as the container keeps it: edges nested, no edge twice, and
    all cells in use handed out already. *)
Definition well_formed f : Prop :=
  nesting [] (fullorder f) = Some []
  ∧ NoDup (fullorder f)
  ∧ Forall (λ i, i.1 < next_cell f) (fullorder f).

Definition empty_forest : forest T :=
  {| fullorder := []; content := λ _, None; next_cell := 0 |}.

(** Modelled from the spec: [forest::insert(position, x)]. A new node with
    value [x] and no children is put in front of [position]; the iterator
    returned is on its leading edge. *)
Definition insert (pos : iterator) (x : T) f : position * forest T :=
  let n := next_cell f in
  ((n, forest_leading_edge),
   {| fullorder :=
        until pos (fullorder f)
        ++ [(n, forest_leading_edge); (n, forest_trailing_edge)]
        ++ match pos with Some i => seek i (fullorder f) | None => [] end;
      content := λ m, if decide (m = n) then Some x else content f m;
      next_cell := S n |}).

(** Modelled from the spec: [forest::erase(position)] of one node. Its two
    edges go, and its value; its children, if any, stay where they are. *)
Definition erase_node (n : nat) f : forest T :=
  {| fullorder := filter (λ i, i.1 ≠ n) (fullorder f);
     content := λ m, if decide (m = n) then None else content f m;
     next_cell := next_cell f |}.

(** Modelled from the spec: [forest::erase(first, last)], the half-open
    range erase. The range is walked; a leading edge opens a node, and a
    trailing edge met while a node is open erases its node. *)
Fixpoint erase_walk (stack_depth : nat) (range : list position) f : forest T :=
  match range with
  | [] => f
  | (n, forest_leading_edge) :: rest => erase_walk (S stack_depth) rest f
  | (n, forest_trailing_edge) :: rest =>
      erase_walk (Nat.pred stack_depth) rest
        match stack_depth with
        | 0 => f
        | S _ => erase_node n f
        end
  end.

Definition erase (first last : iterator) f : iterator * forest T :=
  (last, erase_walk 0 (range first last (fullorder f)) f).
End forest.

(** *** The nodes of base_node.hpp *)

Section nodes.
(** [std::shared_ptr<parallel_region>], never looked into. *)
Context {region_t : Type}.

(** [class tree_base_node]: the region and the name (kept in the graph
    properties); the pointer [fg_] to the forest is the forest that the
    functions below take and return. *)
Record tree_base_node : Type :=
  { region_ : region_t;
    name_ : string }.

(** [class owning_base_node : public tree_base_node] *)
Record owning_base_node : Type :=
  { base : tree_base_node;
    self_ : position }.

(** What the forest holds, a [std::unique_ptr<tree_node>]: a node, or an
    [owner_holder] with its owner once [set_owner] has been called. *)
Inductive tree_node : Type :=
| a_tree_base_node (node : tree_base_node)
| an_owner_holder (owner_ : option owning_base_node).

Abbreviation forest_t := (forest tree_node).

(** [tree_base_node::region] *)
Definition region (this : owning_base_node) : region_t := region_ (base this).

(** [tree_node::region], for a node held by the forest. *)
Definition region_of (node : tree_node) : option region_t :=
  match node with
  | a_tree_base_node node => Some (region_ node)
  | an_owner_holder (Some owner) => Some (region owner)
  | an_owner_holder None => None
  end.

(** Modelled from the spec: [owning_base_node::add_child] is declared in
    base_node.hpp and defined in a file that is not part of the sources. The
    specification has it insert the child "as the last child of the parent in
    the tree" and return a pointer to it; [make_owner], which is in the
    sources, does so by inserting at [self_], the parent's trailing edge. The
    pointer returned is the cell of the new node. *)
Definition add_child (this : owning_base_node) (child : tree_node)
    (f : forest_t) : nat * forest_t :=
  let '(child_it, f') := insert (Some (self_ this)) child f in
  ((trailing_of child_it).1, f').

(** [make_child<node_t>(args...)]: the child is built on
    [tree_base_node{fg_, region(), node_t::default_name}]. *)
Definition make_child (default_name : string) (this : owning_base_node)
    (f : forest_t) : nat * forest_t :=
  add_child this
    (a_tree_base_node {| region_ := region this; name_ := default_name |}) f.

(** The overload of [make_child] with a region. *)
Definition make_child_in (r : region_t) (default_name : string)
    (this : owning_base_node) (f : forest_t) : nat * forest_t :=
  add_child this (a_tree_base_node {| region_ := r; name_ := default_name |}) f.

(** [make_child_named<node_t>(name, args...)]: as [make_child], with the
    name given. *)
Definition make_child_named (name : string) (this : owning_base_node)
    (f : forest_t) : nat * forest_t :=
  add_child this
    (a_tree_base_node {| region_ := region this; name_ := name |}) f.

(** The overload of [make_child_named] with a region. *)
Definition make_child_named_in (r : region_t) (name : string)
    (this : owning_base_node) (f : forest_t) : nat * forest_t :=
  add_child this (a_tree_base_node {| region_ := r; name_ := name |}) f.

(** [new_node(name)]: a plain [tree_base_node] in the region of [this]. *)
Definition new_node (name : string) (this : owning_base_node) (f : forest_t)
  : nat * forest_t :=
  add_child this
    (a_tree_base_node {| region_ := region this; name_ := name |}) f.

(** [new_node(r, name)] *)
Definition new_node_in (r : region_t) (name : string)
    (this : owning_base_node) (f : forest_t) : nat * forest_t :=
  add_child this (a_tree_base_node {| region_ := r; name_ := name |}) f.

(** [make_owner<node_t>(r, name, args...)]: insert a holder at [self_],
    build the owner on the holder's trailing edge, and give it to the
    holder. *)
Definition make_owner (r : region_t) (name : string)
    (this : owning_base_node) (f : forest_t) : owning_base_node * forest_t :=
  let '(inserted, f') := insert (Some (self_ this)) (an_owner_holder None) f in
  let iter := trailing_of inserted in
  let owner := {| base := {| region_ := r; name_ := name |}; self_ := iter |} in
  (owner,
   {| fullorder := fullorder f';
      content := λ m, if decide (m = iter.1)
                      then Some (an_owner_holder (Some owner))
                      else content f' m;
      next_cell := next_cell f' |}).

(** Modelled from the spec: the constructor of [forest_owner] is defined in
    a file that is not part of the sources. "A tree is created by
    constructing a root owner (which allocates the shared tree context and
    inserts itself as the sole node)." *)
Definition forest_owner (n : string) (r : region_t)
  : owning_base_node * forest_t :=
  let '(inserted, f) := insert None (an_owner_holder None) empty_forest in
  let iter := trailing_of inserted in
  let root := {| base := {| region_ := r; name_ := n |}; self_ := iter |} in
  (root,
   {| fullorder := fullorder f;
      content := λ m, if decide (m = iter.1)
                      then Some (an_owner_holder (Some root))
                      else content f m;
      next_cell := next_cell f |}).

(** [make_child] called [K] times on one node; the pointers returned, in
    the order of the calls. *)
Fixpoint make_children (K : nat) (default_name : string)
    (this : owning_base_node) (f : forest_t) : list nat * forest_t :=
  match K with
  | 0 => ([], f)
  | S K' =>
      let '(child, f1) := make_child default_name this f in
      let '(rest, f2) := make_children K' default_name this f1 in
      (child :: rest, f2)
  end.

(** [erase_with_subtree(forest, position)]:
    [forest.erase(leading_of(position), ++trailing_of(position))] *)
Definition erase_with_subtree (f : forest_t) (pos : position)
  : iterator * forest_t :=
  erase (Some (leading_of pos)) (next (fullorder f) (trailing_of pos)) f.
End nodes.

Arguments tree_base_node : clear implicits.
Arguments owning_base_node : clear implicits.
Arguments tree_node : clear implicits.

End BaseNode.

(** * Part II: properties *)

Module EventPortsFacts.
Import EventPorts.

Section ports.
Context {W event_t : Type}.
Implicit Types (σ : handler_store W event_t) (p : event_out_port event_t).

Lemma copy_port_eq p : copy_port p = p.
Proof. by destruct p. Qed.

Lemma targets_connect σ p h :
  allocated σ p → targets (connect p h σ) p = targets σ p ++ [h].
Proof.
  unfold allocated, targets, connect. intros Hlt.
  rewrite list_lookup_alter_eq.
  destruct (lookup_lt_is_Some_2 σ _ Hlt) as [v Hv]. by rewrite Hv.
Qed.

Lemma targets_connect_ne σ p q h :
  event_handlers p ≠ event_handlers q →
  targets (connect p h σ) q = targets σ q.
Proof.
  unfold targets, connect. intros Hne. by rewrite list_lookup_alter_ne.
Qed.

Lemma length_connect σ p h : length (connect p h σ) = length σ.
Proof. unfold connect. by rewrite length_alter. Qed.

Lemma allocated_connect σ p q h : allocated σ q → allocated (connect p h σ) q.
Proof. unfold allocated. by rewrite length_connect. Qed.

Lemma targets_new_port σ : targets (new_port σ).2 (new_port σ).1 = [].
Proof.
  unfold targets, new_port; simpl.
  by rewrite lookup_app_r, Nat.sub_diag.
Qed.

Lemma allocated_new_port σ : allocated (new_port σ).2 (new_port σ).1.
Proof. unfold allocated, new_port; simpl. rewrite length_app; simpl. lia. Qed.

Lemma targets_new_port_old σ p :
  allocated σ p → targets (new_port σ).2 p = targets σ p.
Proof.
  unfold allocated, targets, new_port; simpl. intros Hlt.
  by rewrite lookup_app_l.
Qed.

Lemma targets_connect_all hs : ∀ σ p,
  allocated σ p → targets (connect_all p hs σ) p = targets σ p ++ hs.
Proof.
  induction hs as [|h hs IH]; intros σ p Hp; simpl.
  - by rewrite app_nil_r.
  - unfold connect_all in *; simpl. rewrite IH.
    + rewrite targets_connect by done. by rewrite <- app_assoc.
    + by apply allocated_connect.
Qed.

Lemma fire_targets p e σ w hs :
  targets σ p = hs → fire p e σ w = foldl (λ w h, h e w) w hs.
Proof. unfold fire. by intros ->. Qed.

Lemma fire_connect σ p h e w :
  allocated σ p → fire p e (connect p h σ) w = h e (fire p e σ w).
Proof.
  intros Hp. unfold fire. rewrite targets_connect by done.
  by rewrite foldl_app.
Qed.

Lemma copy_of_eq p q : copy_of p q → q = p.
Proof. induction 1 as [|q _ IH]; [done|]. by rewrite copy_port_eq. Qed.
End ports.

Lemma foldl_recorder {event_t} (e : event_t) (ns : list nat) :
  ∀ log,
    foldl (λ w h, h e w) log (recorder <$> ns) = log ++ ((λ i, (i, e)) <$> ns).
Proof.
  induction ns as [|i ns IH]; intros log; simpl.
  - by rewrite app_nil_r.
  - rewrite IH. unfold recorder at 1. by rewrite <- app_assoc.
Qed.

(** C1. Fan-out completeness. On an event source that has no handler yet,
    register the handlers [hs] one after the other and fire once with [e]:
    the handler vector is exactly [hs], and the effect of the fire is that of
    calling the first handler on [e], then the second on [e], and so on to the
    last, each once. With handlers that record their own number, a fire after
    registering numbers [0 .. N-1] appends exactly
    [(0,e); (1,e); ...; (N-1,e)] to the record. *)
Theorem fire_calls_every_handler_once_in_order
    (W event_t : Type) (σ : handler_store W event_t)
    (p : event_out_port event_t) (hs : list (handler_t W event_t))
    (e : event_t) (w : W)
    (σr : handler_store (list (nat * event_t)) event_t)
    (N : nat) (log : list (nat * event_t)) :
  allocated σ p → targets σ p = [] →
  allocated σr p → targets σr p = [] →
  targets (connect_all p hs σ) p = hs
  ∧ fire p e (connect_all p hs σ) w = foldl (λ w h, h e w) w hs
  ∧ fire p e (connect_all p (recorder <$> seq 0 N) σr) log
    = log ++ ((λ i, (i, e)) <$> seq 0 N).
Proof.
  intros Hp Hnil Hpr Hnilr.
  assert (Hhs : targets (connect_all p hs σ) p = hs).
  { rewrite targets_connect_all by done. by rewrite Hnil. }
  split; [done|]. split.
  - by apply fire_targets.
  - erewrite fire_targets; [apply foldl_recorder|].
    rewrite targets_connect_all by done. by rewrite Hnilr.
Qed.

Lemma fire_calls_every_handler_once_in_order_witness :
  let p : event_out_port nat := (new_port ([] : handler_store nat nat)).1 in
  fire p 3 (connect_all p [λ e w, w + e; λ e w, w * e] [[]]) 1 = 12
  ∧ fire p 7 (connect_all p (recorder <$> seq 0 3) [[]]) []
    = [(0, 7); (1, 7); (2, 7)].
Proof.
  intros p.
  destruct (fire_calls_every_handler_once_in_order nat nat [[]] p
              [λ e w, w + e; λ e w, w * e] 3 1 [[]] 3 [])
    as (_ & H1 & _); try reflexivity; try (unfold allocated; simpl; lia).
  destruct (fire_calls_every_handler_once_in_order nat nat [[]] p
              [] 7 1 [[]] 3 [])
    as (_ & _ & H2); try reflexivity; try (unfold allocated; simpl; lia).
  split; [exact H1 | exact H2].
Defined.

(** C3. The handler vector is shared by all copies of a port: a handler
    registered through one copy [q] of a port [p] lands in the one vector
    that every other copy [r] reads, so firing [r] (the original included)
    calls it, after the handlers that were there before; no vector is
    allocated by copying or connecting. *)
Theorem handler_vector_shared_by_copies
    (W event_t : Type) (σ : handler_store W event_t)
    (p q r : event_out_port event_t) (h : handler_t W event_t)
    (e : event_t) (w : W) :
  allocated σ p → copy_of p q → copy_of p r →
  targets (connect q h σ) r = targets σ p ++ [h]
  ∧ fire r e (connect q h σ) w = h e (fire p e σ w)
  ∧ length (connect q h σ) = length σ.
Proof.
  intros Hp Hq Hr. apply copy_of_eq in Hq as ->. apply copy_of_eq in Hr as ->.
  split; [by apply targets_connect|]. split.
  - by apply fire_connect.
  - apply length_connect.
Qed.

Lemma handler_vector_shared_by_copies_witness :
  let p : event_out_port nat := {| event_handlers := 0 |} in
  fire p 5 (connect (copy_port p) (λ e w, w + e) [[λ e w, w * e]]) 2 = 15
  ∧ fire (copy_port (copy_port p)) 5
      (connect (copy_port p) (λ e w, w + e) [[λ e w, w * e]]) 2 = 15.
Proof.
  intros p. split.
  - destruct (handler_vector_shared_by_copies nat nat [[λ e w, w * e]]
                p (copy_port p) p (λ e w, w + e) 5 2) as (_ & H & _).
    + unfold allocated; simpl; lia.
    + apply copy_of_copy, copy_of_self.
    + apply copy_of_self.
    + exact H.
  - destruct (handler_vector_shared_by_copies nat nat [[λ e w, w * e]]
                p (copy_port p) (copy_port (copy_port p))
                (λ e w, w + e) 5 2) as (_ & H & _).
    + unfold allocated; simpl; lia.
    + apply copy_of_copy, copy_of_self.
    + apply copy_of_copy, copy_of_copy, copy_of_self.
    + exact H.
Defined.

Section dispatch.
Context {W : Type}.
Variable connection : ∀ A B C, callable W A B → callable W B C → callable W A C.
Arguments connection {A B C} _ _.

(** C2. Connection dispatch. With an event source [a] on the left, a sink
    [b] gets its handler pushed onto [a]'s vector and nothing is returned, so
    a fire of [a] calls the handler of [b] with the event, after the handlers
    that were there; any other [b] gives back the proxy holding [a] and [b],
    and the store is left alone. With a proxy on [a] on the left, a [next]
    that is not a sink gives back a proxy on the same source whose stored
    part is the connection of the old stored part with [next], the store left
    alone; a [next] that is a sink gets the connection of the stored part
    with it pushed onto the vector of [a], the original source, and nothing
    is returned: a fire of [a] then runs that connection, of the stored part
    with the handler of [next], on the event and drops its result. Where a
    connection of two connectables runs the left one and hands its result to
    the right one, the chain [a >> f >> g >> s] registers nothing until [s]
    is connected, and a fire of [a] with [e] then runs [f] on [e], [g] on
    the result, and the handler of [s] on the result of that. *)
Theorem connect_dispatch
    (event_t : Type) (a : event_out_port event_t)
    (σ : handler_store W event_t) :
  allocated σ a →
  (∀ b : event_in_port W event_t, ∃ σ',
     connect_impl_source a (is_sink b) σ = (returns_void, σ')
     ∧ targets σ' a = targets σ a ++ [event_handler b]
     ∧ ∀ e w, fire a e σ' w = event_handler b e (fire a e σ w))
  ∧ (∀ B (b : callable W event_t B),
     connect_impl_source a (not_sink b) σ
       = (returns_proxy {| source := a; stored_sink := b |}, σ))
  ∧ (∀ B C (stored : callable W event_t B) (next : callable W B C),
     connect_impl_proxy (@connection)
         {| source := a; stored_sink := stored |} (not_sink next) σ
       = (returns_proxy
            {| source := a; stored_sink := connection stored next |}, σ))
  ∧ (∀ B (stored : callable W event_t B) (next : event_in_port W B), ∃ σ',
     connect_impl_proxy (@connection)
         {| source := a; stored_sink := stored |} (is_sink next) σ
       = (returns_void, σ')
     ∧ targets σ' a
       = targets σ a ++ [as_handler (connection stored (sink_callable next))]
     ∧ ∀ e w,
         fire a e σ' w
         = (connection stored (λ b w', (tt, event_handler next b w'))
              e (fire a e σ w)).2)
  ∧ ((∀ A B C (f : callable W A B) (g : callable W B C) x w,
        connection f g x w = (let '(b, w') := f x w in g b w')) →
     ∀ B C (f : callable W event_t B) (g : callable W B C)
       (s : event_in_port W C),
     ∃ p1 p2 σ',
       connect_impl_source a (not_sink f) σ = (returns_proxy p1, σ)
       ∧ connect_impl_proxy (@connection) p1 (not_sink g) σ
         = (returns_proxy p2, σ)
       ∧ connect_impl_proxy (@connection) p2 (is_sink s) σ
         = (returns_void, σ')
       ∧ (∀ q, event_handlers q ≠ event_handlers a →
            targets σ' q = targets σ q)
       ∧ ∀ e w,
           fire a e σ' w
           = (let '(b, w1) := f e (fire a e σ w) in
              let '(c, w2) := g b w1 in
              event_handler s c w2)).
Proof.
  intros Ha. unfold connect_impl_source, connect_impl_proxy, proxy_connect.
  cbn [source stored_sink]. rewrite !copy_port_eq.
  split; [|split; [done|split; [done|split]]].
  - intros b. eexists. split; [reflexivity|].
    split; [by apply targets_connect|].
    intros e w. by rewrite fire_connect.
  - intros B stored next. eexists. split; [reflexivity|].
    split; [by apply targets_connect|].
    intros e w. by rewrite fire_connect.
  - intros Hruns B C f g s. eexists _, _, _.
    split; [reflexivity|]. cbn [source stored_sink]. rewrite !copy_port_eq.
    split; [reflexivity|]. split; [reflexivity|]. split.
    + intros q Hq. by apply targets_connect_ne.
    + intros e w. rewrite fire_connect by done.
      unfold as_handler. cbn [source stored_sink].
      rewrite !Hruns. unfold sink_callable, call.
      destruct (f e (fire a e σ w)) as [b w1].
      by destruct (g b w1) as [c w2].
Qed.
End dispatch.

Lemma connect_dispatch_witness :
  let a : event_out_port nat := {| event_handlers := 0 |} in
  let b : event_in_port nat nat := {| event_handler := λ e w, w + e |} in
  let f : callable nat nat nat := λ e w, (e * 3, w) in
  let g : callable nat nat nat := λ x w, (x + 1, S w) in
  (∃ σ', connect_impl_source a (is_sink b) [[]] = (returns_void, σ')
         ∧ targets σ' a = [event_handler b])
  ∧ ∃ p1 p2 σ',
      connect_impl_source a (not_sink f) [[]] = (returns_proxy p1, [[]])
      ∧ connect_impl_proxy (@compose_connection nat) p1 (not_sink g) [[]]
        = (returns_proxy p2, [[]])
      ∧ connect_impl_proxy (@compose_connection nat) p2 (is_sink b) [[]]
        = (returns_void, σ')
      ∧ fire a 5 σ' 2 = 19.
Proof.
  intros a b f g.
  destruct (connect_dispatch (@compose_connection nat) nat a [[]])
    as (Hsink & _ & _ & _ & Hchain); [unfold allocated; simpl; lia|].
  split.
  - destruct (Hsink b) as (σ' & Hvoid & Htargets & _).
    exists σ'. split; [exact Hvoid | exact Htargets].
  - destruct (Hchain (λ A B C f g x w, eq_refl) nat nat f g b)
      as (p1 & p2 & σ' & H1 & H2 & H3 & _ & Hfire).
    exists p1, p2, σ'. split; [exact H1|]. split; [exact H2|].
    split; [exact H3 | exact (Hfire 5 2)].
Defined.

(** *** Further properties of event_out_port *)

(** X1. [connect] changes one vector only: the vector of the port is the
    one it was with the new handler, and no other, put at its end, so a fire
    of the port calls the new handler after the ones that were there; the
    vector is one handler longer, no vector is added, and a port with
    another vector keeps its handlers, so a fire of it does what it did
    before. *)
Theorem connect_changes_one_vector
    (W event_t : Type) (σ : handler_store W event_t)
    (p q : event_out_port event_t) (h : handler_t W event_t)
    (e : event_t) (w : W) :
  allocated σ p → event_handlers p ≠ event_handlers q →
  targets (connect p h σ) p = targets σ p ++ [h]
  ∧ fire p e (connect p h σ) w = h e (fire p e σ w)
  ∧ length (targets (connect p h σ) p) = S (length (targets σ p))
  ∧ length (connect p h σ) = length σ
  ∧ targets (connect p h σ) q = targets σ q
  ∧ fire q e (connect p h σ) w = fire q e σ w.
Proof.
  intros Hp Hne. split; [|split; [|split; [|split; [|split]]]].
  - by apply targets_connect.
  - by apply fire_connect.
  - rewrite targets_connect by done. rewrite length_app; simpl. lia.
  - apply length_connect.
  - by apply targets_connect_ne.
  - unfold fire. by rewrite targets_connect_ne.
Qed.

Lemma connect_changes_one_vector_witness :
  let p : event_out_port nat := {| event_handlers := 0 |} in
  let q : event_out_port nat := {| event_handlers := 1 |} in
  fire q 5 (connect p (λ e w, w + e) [[λ e w, w + 1]; [λ e w, w * e]]) 2 = 10
  ∧ fire p 5 (connect p (λ e w, w + e) [[λ e w, w + 1]; [λ e w, w * e]]) 2
    = 8.
Proof.
  intros p q.
  destruct (connect_changes_one_vector nat nat
              [[λ e w, w + 1]; [λ e w, w * e]] p q
              (λ e w, w + e) 5 2) as (_ & Hp & _ & _ & _ & Hq).
  - unfold allocated; simpl; lia.
  - simpl; lia.
  - split; [exact Hq | exact Hp].
Defined.

(** X2. [connect] does not look for the handler in the vector: a handler
    registered twice is called twice by every fire, after the handlers that
    were there before. *)
Theorem handler_registered_twice_is_called_twice
    (W event_t : Type) (σ : handler_store W event_t)
    (p : event_out_port event_t) (h : handler_t W event_t)
    (e : event_t) (w : W) :
  allocated σ p →
  targets (connect p h (connect p h σ)) p = targets σ p ++ [h; h]
  ∧ fire p e (connect p h (connect p h σ)) w = h e (h e (fire p e σ w)).
Proof.
  intros Hp. split.
  - rewrite !targets_connect by by try apply allocated_connect.
    by rewrite <- app_assoc.
  - rewrite !fire_connect by by try apply allocated_connect. done.
Qed.

Lemma handler_registered_twice_is_called_twice_witness :
  let p : event_out_port nat := {| event_handlers := 0 |} in
  fire p 5 (connect p (λ e w, w + e) (connect p (λ e w, w + e) [[]])) 2 = 12.
Proof.
  intros p.
  destruct (handler_registered_twice_is_called_twice nat nat [[]] p
              (λ e w, w + e) 5 2) as (_ & H).
  - unfold allocated; simpl; lia.
  - exact H.
Defined.

End EventPortsFacts.

Module ListSplitterFacts.
Import EventPorts ListSplitter.

Section list_splitter.
Context {W value_t predicate_result_t : Type}.
Variable less : predicate_result_t → predicate_result_t → bool.

(** [std::less] is a strict total order on the key type. *)
Hypothesis less_irrefl : ∀ a, less a a = false.
Hypothesis less_trans : ∀ a b c,
  less a b = true → less b c = true → less a c = true.
Hypothesis less_total : ∀ a b, less a b = false → less b a = false → a = b.

Abbreviation entry_t := (ListSplitter.entry_t value_t).
Abbreviation entries_t := (list (predicate_result_t * entry_t)).
Abbreviation splitter := (list_splitter value_t predicate_result_t).
Implicit Types (m : entries_t) (k : predicate_result_t) (e : entry_t).

Lemma same_key_eq a b : same_key less a b = true ↔ a = b.
Proof.
  unfold same_key. split.
  - intros [Hab Hba]%andb_true_iff.
    apply negb_true_iff in Hab, Hba. by apply less_total.
  - intros ->. by rewrite less_irrefl.
Qed.

Lemma less_asym a b : less a b = true → less b a = false.
Proof.
  intros Hab. destruct (less b a) eqn:Hba; [|done].
  by rewrite <- (less_irrefl a), (less_trans a b a).
Qed.

Lemma ascending_cons k e m :
  ascending less ((k, e) :: m) ↔
  ascending less m ∧ Forall (λ k', less k k' = true) m.*1.
Proof. unfold ascending; simpl. rewrite StronglySorted_cons. tauto. Qed.

Lemma map_find_above k m :
  Forall (λ k', less k k' = true) m.*1 → map_find less k m = None.
Proof.
  destruct m as [|[k' e] m]; simpl; [done|].
  intros [Hk _]%Forall_cons. by rewrite (less_asym _ _ Hk), Hk.
Qed.

Lemma map_find_Some k e m :
  ascending less m → (k, e) ∈ m → map_find less k m = Some e.
Proof.
  induction m as [|[k' e'] m IH]; simpl; [by intros _ ?%elem_of_nil|].
  intros [Hm Hall]%ascending_cons [Heq|Hin]%elem_of_cons.
  - injection Heq as <- <-. by rewrite less_irrefl.
  - assert (Hlt : less k' k = true).
    { rewrite Forall_forall in Hall. apply Hall.
      apply list_elem_of_fmap. by exists (k, e). }
    rewrite Hlt. by apply IH.
Qed.

Lemma map_find_elem_of k e m : map_find less k m = Some e → (k, e) ∈ m.
Proof.
  induction m as [|[k' e'] m IH]; simpl; [done|].
  destruct (less k' k) eqn:H1.
  - intros ?. right. by apply IH.
  - destruct (less k k') eqn:H2; [done|]. intros [= ->].
    rewrite (less_total _ _ H2 H1). by left.
Qed.

Lemma map_find_None k m : k ∉ m.*1 → map_find less k m = None.
Proof.
  intros Hk. destruct (map_find less k m) as [e|] eqn:He; [|done].
  destruct Hk. apply list_elem_of_fmap. exists (k, e).
  split; [done|]. by apply map_find_elem_of.
Qed.

(** *** The map operations on an ascending less map *)

Lemma alter_at_above f k m :
  Forall (λ k', less k k' = true) m.*1 → alter_at less f k <$> m = m.
Proof.
  induction m as [|[k' e'] m IH]; csimpl; [done|].
  intros [Hk Hm]%Forall_cons. rewrite IH by done.
  unfold alter_at, same_key; simpl. by rewrite Hk.
Qed.

Lemma Forall_less_trans k k' (ks : list predicate_result_t) :
  less k k' = true →
  Forall (λ k'', less k' k'' = true) ks → Forall (λ k'', less k k'' = true) ks.
Proof.
  intros Hk Hks. eapply Forall_impl; [done|].
  intros k'' ?. by apply (less_trans k k').
Qed.

Lemma map_alter_fmap f k m :
  ascending less m → map_alter less f k m = alter_at less f k <$> m.
Proof.
  induction m as [|[k' e'] m IH]; csimpl; [done|].
  intros [Hm Hall]%ascending_cons.
  destruct (less k' k) eqn:H1.
  - rewrite IH by done. unfold alter_at at 2, same_key; csimpl.
    by rewrite H1, andb_false_r.
  - destruct (less k k') eqn:H2.
    + rewrite alter_at_above by by apply (Forall_less_trans k k').
      unfold alter_at, same_key; simpl. by rewrite H2.
    + assert (k = k') as <- by by apply less_total.
      rewrite alter_at_above by done.
      unfold alter_at, same_key; simpl. by rewrite H1.
Qed.

Lemma alter_at_keys f k m : (alter_at less f k <$> m).*1 = m.*1.
Proof. rewrite <- list_fmap_compose. by apply list_fmap_ext. Qed.

Lemma map_insert_keys k e m k' :
  k' ∈ (map_insert less k e m).*1 ↔ k' = k ∨ k' ∈ m.*1.
Proof.
  induction m as [|[k0 e0] m IH]; csimpl.
  - rewrite list_elem_of_singleton, elem_of_nil. tauto.
  - destruct (less k0 k) eqn:H1; csimpl.
    + rewrite !elem_of_cons, IH. tauto.
    + destruct (less k k0) eqn:H2; csimpl.
      * rewrite !elem_of_cons. tauto.
      * rewrite (less_total _ _ H2 H1), elem_of_cons. tauto.
Qed.

Lemma map_insert_ascending k e m :
  ascending less m → ascending less (map_insert less k e m).
Proof.
  induction m as [|[k0 e0] m IH]; csimpl.
  - intros _. apply ascending_cons. split; constructor.
  - intros Hm. pose proof Hm as [Hm' Hall]%ascending_cons.
    destruct (less k0 k) eqn:H1.
    + apply ascending_cons. split; [by apply IH|].
      apply Forall_forall. intros k' [->|Hin]%map_insert_keys; [done|].
      rewrite Forall_forall in Hall. by apply Hall.
    + destruct (less k k0) eqn:H2; [|done].
      apply ascending_cons. split; [done|]. simpl.
      constructor; [done|]. by apply (Forall_less_trans k k0).
Qed.

Lemma map_insert_buffers_empty k e m :
  data e = [] → buffers_empty m → buffers_empty (map_insert less k e m).
Proof.
  intros He. induction m as [|[k0 e0] m IH]; csimpl.
  - intros _. by constructor.
  - intros Hm. pose proof Hm as [H0 Hm']%Forall_cons.
    destruct (less k0 k); [constructor; [done|by apply IH]|].
    destruct (less k k0); [by constructor|done].
Qed.

(** *** The two loops of [receive] *)

Lemma send_spec m : ∀ (σ : handler_store W (list value_t)) (w : W),
  send m σ w
  = (clear_entry <$> m, foldl (λ w ke, fire (port ke.2) (data ke.2) σ w) w m).
Proof.
  induction m as [|[k e] m IH]; intros σ w; csimpl; [done|].
  by rewrite IH.
Qed.

Lemma map_find_same_keys k m1 m2 :
  m1.*1 = m2.*1 → map_find less k m1 = None → map_find less k m2 = None.
Proof.
  revert m2. induction m1 as [|[k1 e1] m1 IH]; intros [|[k2 e2] m2];
    simpl; try done.
  intros [= <- Hks]. destruct (less k1 k); [by apply IH|].
  by destruct (less k k1).
Qed.

Lemma unmatched_same_keys pred m1 m2 range :
  m1.*1 = m2.*1 → unmatched less pred m1 range = unmatched less pred m2 range.
Proof.
  intros Hks. apply list_filter_iff. intros x.
  split; by apply map_find_same_keys.
Qed.

Lemma fill_entry_keys pred range m : (fill_entry less pred range <$> m).*1 = m.*1.
Proof. rewrite <- list_fmap_compose. by apply list_fmap_ext. Qed.

Lemma sort_elements_spec range : ∀ this : splitter,
  ascending less (entries this) →
  foldl (sort_element less) this range
  = {| out_num_dropped :=
         Nat.iter (length (unmatched less (predicate this) (entries this) range))
           size_t_incr (out_num_dropped this);
       entries := fill_entry less (predicate this) range <$> entries this;
       predicate := predicate this |}.
Proof.
  induction range as [|x range IH]; intros [n m pred] Hm; csimpl in *.
  - f_equal. rewrite <- (list_fmap_id m) at 1. apply list_fmap_ext.
    intros _ [k [p d]] _; unfold fill_entry, with_key; csimpl.
    by rewrite app_nil_r.
  - unfold sort_element at 2; csimpl.
    destruct (map_find less (pred x) m) as [e|] eqn:Hfind.
    + rewrite IH; csimpl.
      2:{ rewrite map_alter_fmap by done. unfold ascending.
          by rewrite alter_at_keys. }
      rewrite map_alter_fmap by done. f_equal.
      * unfold unmatched at 2. rewrite filter_cons_False by by rewrite Hfind.
        f_equal. f_equal. apply unmatched_same_keys, alter_at_keys.
      * rewrite <- list_fmap_compose. apply list_fmap_ext.
        intros _ [k [p d]] _; unfold fill_entry, alter_at, with_key; csimpl.
        destruct (same_key less (pred x) k) eqn:Hk; csimpl.
        -- rewrite filter_cons_True by done. by rewrite <- app_assoc.
        -- rewrite filter_cons_False by by rewrite Hk. done.
    + rewrite IH by done; csimpl. f_equal.
      * unfold unmatched at 2. rewrite filter_cons_True by done.
        by rewrite length_cons, Nat.iter_succ_r.
      * apply list_fmap_ext.
        intros i [k [p d]] Hi; unfold fill_entry, with_key; csimpl.
        rewrite filter_cons_False; [done|].
        intros Hk%same_key_eq. subst k.
        apply list_elem_of_lookup_2 in Hi.
        by rewrite (map_find_Some _ _ _ Hm Hi) in Hfind.
Qed.

Lemma clear_fill_entry pred range m :
  buffers_empty m → clear_entry <$> (fill_entry less pred range <$> m) = m.
Proof.
  intros Hm. rewrite <- list_fmap_compose.
  rewrite <- (list_fmap_id m) at 2. apply list_fmap_ext.
  intros i [k [p d]] Hi. apply list_elem_of_lookup_2 in Hi.
  unfold buffers_empty in Hm. rewrite Forall_forall in Hm.
  specialize (Hm _ Hi). simpl in *. by subst d.
Qed.

Lemma receive_spec range (this : splitter)
    (σ : handler_store W (list value_t)) (w : W) :
  wf less this →
  receive less range this σ w
  = ({| out_num_dropped :=
          Nat.iter (length (unmatched less (predicate this) (entries this) range))
            size_t_incr (out_num_dropped this);
        entries := entries this;
        predicate := predicate this |},
     foldl (λ w ke,
              fire (port ke.2) (with_key less (predicate this) ke.1 range) σ w)
       w (entries this)).
Proof.
  intros [Hasc Hempty]. unfold receive.
  rewrite sort_elements_spec by done; simpl. rewrite send_spec.
  rewrite clear_fill_entry by done. f_equal.
  rewrite foldl_fmap. revert w.
  unfold buffers_empty in Hempty. clear Hasc.
  induction Hempty as [|[k [p d]] m Hd _ IH]; intros w; simpl; [done|].
  simpl in Hd. subst d. by rewrite IH.
Qed.

(** Every splitter a program can hold satisfies the invariant and keeps the
    predicate it was built with. *)
Lemma reachable_wf pred (this : splitter) :
  reachable (W:=W) less pred this → wf less this ∧ predicate this = pred.
Proof.
  induction 1 as [|this value σ _ [[Hasc Hempty] Hpred]
                  |this range σ w _ [Hwf Hpred]].
  - repeat split; constructor.
  - unfold out. destruct (map_find less value (entries this)); simpl.
    + done.
    + repeat split; simpl; [|by apply map_insert_buffers_empty|done].
      by apply map_insert_ascending.
  - rewrite receive_spec by done. simpl. by destruct Hwf.
Qed.

Lemma with_key_cons (pred : value_t → predicate_result_t) k x range :
  with_key less pred k (x :: range)
  = if same_key less (pred x) k then x :: with_key less pred k range
    else with_key less pred k range.
Proof.
  unfold with_key. destruct (same_key less (pred x) k) eqn:Hk.
  - by rewrite filter_cons_True.
  - rewrite filter_cons_False; [done|]. by rewrite Hk.
Qed.

Lemma same_key_refl a : same_key less a a = true.
Proof. by apply same_key_eq. Qed.

Lemma same_key_ne a b : a ≠ b → same_key less a b = false.
Proof.
  intros Hne. destruct (same_key less a b) eqn:H; [|done].
  by apply same_key_eq in H.
Qed.

(** An ascending less map whose keys are exactly [A] and [B]. *)
Lemma two_keys m A B :
  ascending less m → (∀ k, k ∈ m.*1 ↔ k = A ∨ k = B) → A ≠ B →
  (∃ eA eB, m = [(A, eA); (B, eB)] ∧ less A B = true)
  ∨ (∃ eA eB, m = [(B, eB); (A, eA)] ∧ less B A = true).
Proof.
  intros Hasc Hkeys Hne.
  destruct m as [|[k1 e1] [|[k2 e2] [|[k3 e3] m]]]; csimpl in *.
  - destruct (not_elem_of_nil A). apply Hkeys. by left.
  - destruct Hne.
    assert (A = k1) as -> by (apply list_elem_of_singleton, Hkeys; by left).
    symmetry. apply list_elem_of_singleton, Hkeys. by right.
  - apply ascending_cons in Hasc as [_ [H12 _]%Forall_cons]. simpl in H12.
    assert (H1 : k1 = A ∨ k1 = B) by (apply Hkeys; left).
    assert (H2 : k2 = A ∨ k2 = B) by (apply Hkeys; right; left).
    destruct H1 as [-> | ->], H2 as [-> | ->];
      try by rewrite less_irrefl in H12.
    + left. by exists e1, e2.
    + right. by exists e2, e1.
  - apply ascending_cons in Hasc as [Hasc [H12 [H13 _]%Forall_cons]%Forall_cons].
    apply ascending_cons in Hasc as [_ [H23 _]%Forall_cons].
    simpl in H12, H13, H23.
    assert (H1 : k1 = A ∨ k1 = B) by (apply Hkeys; left).
    assert (H2 : k2 = A ∨ k2 = B) by (apply Hkeys; right; left).
    assert (H3 : k3 = A ∨ k3 = B) by (apply Hkeys; right; right; left).
    destruct H1 as [-> | ->], H2 as [-> | ->], H3 as [-> | ->];
      by rewrite less_irrefl in *.
Qed.

(** C4. Drop accounting. A splitter whose map has entries for exactly the
    two keys [A] and [B] receives four elements with keys [A], [A], [C], [B].
    The firing fires the port of [A] once, with the two [A]-elements, and the
    port of [B] once, with the [B]-element (the port of the lesser key first);
    nothing else is fired, so the [C]-element reaches no output. The counter
    behind [out_num_dropped] is incremented once (an increment of a [size_t]:
    one more, unless the counter was at [SIZE_MAX]), and the map is as
    before, its buffers empty again. *)
Theorem splitter_drop_accounting
    (pred : value_t → predicate_result_t) (this : splitter)
    (σ : handler_store W (list value_t)) (w : W)
    (A B C : predicate_result_t) (x1 x2 x3 x4 : value_t) :
  reachable (W:=W) less pred this →
  (∀ k, k ∈ (entries this).*1 ↔ k = A ∨ k = B) →
  A ≠ B → C ≠ A → C ≠ B →
  pred x1 = A → pred x2 = A → pred x3 = C → pred x4 = B →
  ∃ eA eB this' w',
    map_find less A (entries this) = Some eA
    ∧ map_find less B (entries this) = Some eB
    ∧ receive less [x1; x2; x3; x4] this σ w = (this', w')
    ∧ w' = (if less A B
            then fire (port eB) [x4] σ (fire (port eA) [x1; x2] σ w)
            else fire (port eA) [x1; x2] σ (fire (port eB) [x4] σ w))
    ∧ out_num_dropped this' = size_t_incr (out_num_dropped this)
    ∧ (0 ≤ out_num_dropped this < SIZE_MAX →
       out_num_dropped this' = out_num_dropped this + 1)%Z
    ∧ entries this' = entries this.
Proof.
  intros [[Hasc Hempty] Hpred]%reachable_wf Hkeys HAB HCA HCB H1 H2 H3 H4.
  assert (HnotC : map_find less C (entries this) = None).
  { apply map_find_None. rewrite Hkeys. tauto. }
  assert (Hincr : ∀ n, (0 ≤ n < SIZE_MAX → size_t_incr n = n + 1)%Z).
  { intros n Hn. unfold size_t_incr, SIZE_MAX in *.
    apply Z.mod_small. lia. }
  assert (HwA : with_key less pred A [x1; x2; x3; x4] = [x1; x2]).
  { rewrite !with_key_cons, H1, H2, H3, H4.
    by rewrite !same_key_refl, (same_key_ne C A), (same_key_ne B A). }
  assert (HwB : with_key less pred B [x1; x2; x3; x4] = [x4]).
  { rewrite !with_key_cons, H1, H2, H3, H4.
    by rewrite !same_key_refl, (same_key_ne C B), (same_key_ne A B). }
  assert (∃ eA eB,
    map_find less A (entries this) = Some eA
    ∧ map_find less B (entries this) = Some eB
    ∧ foldl (λ w ke, fire (port ke.2)
                       (with_key less pred ke.1 [x1; x2; x3; x4]) σ w)
        w (entries this)
      = (if less A B
         then fire (port eB) [x4] σ (fire (port eA) [x1; x2] σ w)
         else fire (port eA) [x1; x2] σ (fire (port eB) [x4] σ w)))
    as (eA & eB & HfA & HfB & Hw).
  { destruct (two_keys _ A B Hasc Hkeys HAB)
      as [(eA & eB & Hm & Hlt)|(eA & eB & Hm & Hlt)];
      exists eA, eB; (split; [|split]);
      try (apply map_find_Some; [done|]; rewrite Hm;
           rewrite !elem_of_cons; tauto).
    - rewrite Hm, Hlt. simpl. by rewrite HwA, HwB.
    - rewrite Hm, (less_asym _ _ Hlt). simpl. by rewrite HwA, HwB. }
  assert (Hn : length (unmatched less pred (entries this) [x1; x2; x3; x4]) = 1).
  { unfold unmatched.
    rewrite filter_cons_False by (rewrite H1, HfA; done).
    rewrite filter_cons_False by (rewrite H2, HfA; done).
    rewrite filter_cons_True by (by rewrite H3).
    rewrite filter_cons_False by (rewrite H4, HfB; done).
    done. }
  exists eA, eB. eexists _, _.
  split; [done|]. split; [done|].
  rewrite receive_spec by done. split; [reflexivity|].
  rewrite Hpred, Hn, Hw. simpl. auto.
Qed.

(** C5, as the code has it. In one firing the ports fire in the order of the
    map, which is ascending less by key whatever the order in which the outputs
    were requested: for a splitter a program can hold, the keys of the map
    ascend strictly, the effect of a firing is that of firing the entries'
    ports one after the other in that order, each with the elements of the
    range that have its key, and the firing leaves the map, and so the order,
    as it was. *)
Theorem outputs_fire_in_key_order
    (pred : value_t → predicate_result_t) (this : splitter)
    (σ : handler_store W (list value_t)) (w : W) (range : list value_t) :
  reachable (W:=W) less pred this →
  StronglySorted (λ a b, less a b = true) (entries this).*1
  ∧ (receive less range this σ w).2
    = foldl (λ w ke, fire (port ke.2) (with_key less pred ke.1 range) σ w)
        w (entries this)
  ∧ entries (receive less range this σ w).1 = entries this.
Proof.
  intros [Hwf Hpred]%reachable_wf. rewrite receive_spec by done.
  rewrite Hpred. by destruct Hwf.
Qed.

(** *** Further properties of list_splitter *)

Lemma map_insert_elem k e m :
  map_find less k m = None → (k, e) ∈ map_insert less k e m.
Proof.
  induction m as [|[k0 e0] m IH]; csimpl.
  - intros _. by left.
  - destruct (less k0 k); [intros ?; right; by apply IH|].
    destruct (less k k0); [intros _; by left|done].
Qed.

Lemma map_insert_split k e m :
  map_insert less k e m = m
  ∨ ∃ m1 m2, m = m1 ++ m2 ∧ map_insert less k e m = m1 ++ (k, e) :: m2.
Proof.
  induction m as [|[k0 e0] m IH]; csimpl.
  - right. by exists [], [].
  - destruct (less k0 k).
    + destruct IH as [-> | (m1 & m2 & -> & ->)]; [by left|].
      right. by exists ((k0, e0) :: m1), m2.
    + destruct (less k k0); [|by left].
      right. by exists [], ((k0, e0) :: m).
Qed.

Lemma size_t_incr_iter (k : nat) (n : Z) :
  (0 ≤ n ≤ SIZE_MAX)%Z →
  Nat.iter k size_t_incr n = ((n + Z.of_nat k) `mod` 2 ^ 64)%Z.
Proof.
  unfold SIZE_MAX. intros Hn. induction k as [|k IH].
  - simpl. rewrite Z.add_0_r. symmetry. apply Z.mod_small. lia.
  - rewrite Nat.iter_succ, IH. unfold size_t_incr.
    rewrite Zplus_mod_idemp_l. f_equal. lia.
Qed.

(** X4. [out] is idempotent: asking for the output of a key a second time
    returns the port of the first time and changes neither the splitter nor
    the store; after the first time the map has the key, and the keys it had
    before. An output that exists already is handed out with nothing
    changed. *)
Theorem out_twice_same_port
    (pred : value_t → predicate_result_t) (this : splitter)
    (σ : handler_store W (list value_t)) (value : predicate_result_t) :
  reachable (W:=W) less pred this →
  out less value (out less value this σ).1.2 (out less value this σ).2
  = out less value this σ
  ∧ (∀ k, k ∈ (entries (out less value this σ).1.2).*1
          ↔ k = value ∨ k ∈ (entries this).*1)
  ∧ (is_Some (map_find less value (entries this)) →
     (out less value this σ).1.2 = this ∧ (out less value this σ).2 = σ).
Proof.
  intros [[Hasc Hempty] Hpred]%reachable_wf.
  destruct (map_find less value (entries this)) as [it|] eqn:Hfind.
  - assert (Hout : out less value this σ = (copy_port (port it), this, σ)).
    { unfold out. by rewrite Hfind. }
    rewrite Hout. simpl. split; [done|]. split; [|done].
    intros k. split; [by right|]. intros [-> | ?]; [|done].
    apply list_elem_of_fmap. exists (value, it). split; [done|].
    by apply map_find_elem_of.
  - set (entry := {| port := {| event_handlers := length σ |}; data := [] |}
                  : entry_t).
    assert (Hout : out less value this σ
      = (copy_port (port entry),
         {| out_num_dropped := out_num_dropped this;
            entries := map_insert less value entry (entries this);
            predicate := predicate this |},
         σ ++ [[]])).
    { unfold out. by rewrite Hfind. }
    rewrite Hout. simpl. split; [|split].
    + unfold out. simpl. rewrite (map_find_Some value entry); [done| |].
      * by apply map_insert_ascending.
      * by apply map_insert_elem.
    + intros k. apply map_insert_keys.
    + by intros [? [=]].
Qed.

(** X5. A firing with an empty range still fires every output, once, with an
    empty range, in the order of the map; the splitter, its counter
    included, is as before. *)
Theorem receive_empty_range_fires_every_output
    (pred : value_t → predicate_result_t) (this : splitter)
    (σ : handler_store W (list value_t)) (w : W) :
  reachable (W:=W) less pred this →
  receive less [] this σ w
  = (this, foldl (λ w ke, fire (port ke.2) [] σ w) w (entries this)).
Proof.
  intros [Hwf Hpred]%reachable_wf. rewrite receive_spec by done.
  by destruct this.
Qed.

(** X6. A splitter none of whose outputs has been requested fires nothing: the
    whole range is dropped, and the counter is advanced once per element. *)
Theorem receive_without_outputs_drops_all
    (this : splitter) (σ : handler_store W (list value_t)) (w : W)
    (range : list value_t) :
  entries this = [] → (0 ≤ out_num_dropped this ≤ SIZE_MAX)%Z →
  (receive less range this σ w).2 = w
  ∧ entries (receive less range this σ w).1 = []
  ∧ out_num_dropped (receive less range this σ w).1
    = ((out_num_dropped this + Z.of_nat (length range)) `mod` 2 ^ 64)%Z.
Proof.
  intros Hnone Hn.
  assert (Hwf : wf less this).
  { unfold wf. rewrite Hnone. split; constructor. }
  assert (Hall : unmatched less (predicate this) [] range = range).
  { unfold unmatched. clear. induction range as [|x range IH]; [done|].
    rewrite filter_cons_True by done. by rewrite IH. }
  rewrite receive_spec by done. rewrite Hnone, Hall. simpl.
  split; [done|]. split; [done|]. by apply size_t_incr_iter.
Qed.

(** X7. The counter behind [out_num_dropped] counts the elements whose key has
    no output: one firing advances it, as a [size_t], by their number; it
    stays a [size_t], and short of a wrap-around it does not go down. *)
Theorem receive_counts_unmatched_elements
    (pred : value_t → predicate_result_t) (this : splitter)
    (σ : handler_store W (list value_t)) (w : W) (range : list value_t) :
  reachable (W:=W) less pred this →
  (0 ≤ out_num_dropped this ≤ SIZE_MAX)%Z →
  let dropped := Z.of_nat (length (unmatched less pred (entries this) range)) in
  let after := out_num_dropped (receive less range this σ w).1 in
  after = ((out_num_dropped this + dropped) `mod` 2 ^ 64)%Z
  ∧ (0 ≤ after ≤ SIZE_MAX)%Z
  ∧ ((out_num_dropped this + dropped ≤ SIZE_MAX)%Z →
     after = (out_num_dropped this + dropped)%Z
     ∧ (out_num_dropped this ≤ after)%Z).
Proof.
  intros [Hwf Hpred]%reachable_wf Hn dropped after.
  assert (Hafter : after = ((out_num_dropped this + dropped) `mod` 2 ^ 64)%Z).
  { unfold after. rewrite receive_spec by done. simpl.
    by rewrite size_t_incr_iter, Hpred. }
  split; [done|]. unfold SIZE_MAX in *. split.
  - rewrite Hafter.
    pose proof (Z.mod_pos_bound (out_num_dropped this + dropped) (2 ^ 64)).
    lia.
  - intros Hfit. rewrite Hafter, Z.mod_small by lia. lia.
Qed.

Lemma ascending_not_elem k e m : ascending less ((k, e) :: m) → k ∉ m.*1.
Proof.
  intros [_ Hall]%ascending_cons Hin. rewrite Forall_forall in Hall.
  specialize (Hall _ Hin). by rewrite less_irrefl in Hall.
Qed.

Lemma delivered_cons_other (pred : value_t → predicate_result_t) x range m :
  pred x ∉ m.*1 → delivered less pred m (x :: range) = delivered less pred m range.
Proof.
  intros Hnot. unfold delivered. apply list_fmap_ext. intros i [k e] Hi.
  cbn [fst]. rewrite with_key_cons, same_key_ne; [done|]. intros Heq.
  apply Hnot. rewrite Heq. apply list_elem_of_fmap. exists (k, e).
  split; [done|].
  by apply list_elem_of_lookup_2 in Hi.
Qed.

Lemma ascending_app_not_elem m1 k e m2 :
  ascending less (m1 ++ (k, e) :: m2) → (k ∉ m1.*1) ∧ (k ∉ m2.*1).
Proof.
  induction m1 as [|[k1 e1] m1 IH]; csimpl.
  - intros Hasc. split; [apply not_elem_of_nil|].
    by apply (ascending_not_elem k e).
  - intros Hasc. pose proof Hasc as [Htail Hall]%ascending_cons.
    destruct (IH Htail) as [H1 H2]. split; [|done].
    rewrite not_elem_of_cons. split; [|done]. intros ->.
    rewrite Forall_forall in Hall.
    assert (Hin : k1 ∈ (m1 ++ (k1, e) :: m2).*1).
    { rewrite fmap_app, elem_of_app. right. by left. }
    specialize (Hall _ Hin). by rewrite less_irrefl in Hall.
Qed.

(** X8. A firing neither loses an element nor delivers one twice: the ranges
    the outputs are fired with, taken together with the elements that are
    counted as dropped, are the elements of the input range, each once. *)
Theorem receive_partitions_the_range
    (pred : value_t → predicate_result_t) (this : splitter)
    (σ : handler_store W (list value_t)) (w : W) (range : list value_t) :
  reachable (W:=W) less pred this →
  (receive less range this σ w).2
  = foldl (λ w '(ke, r), fire (port ke.2) r σ w) w
      (zip (entries this) (delivered less pred (entries this) range))
  ∧ out_num_dropped (receive less range this σ w).1
    = Nat.iter (length (unmatched less pred (entries this) range))
        size_t_incr (out_num_dropped this)
  ∧ concat (delivered less pred (entries this) range)
      ++ unmatched less pred (entries this) range
    ≡ₚ range.
Proof.
  intros [[Hasc Hempty] Hpred]%reachable_wf.
  rewrite receive_spec by done. rewrite Hpred. simpl.
  split; [|split; [done|]].
  - unfold delivered. generalize (entries this) w. clear.
    intros m. induction m as [|[k e] m IH]; intros w; csimpl; [done|].
    by rewrite IH.
  - clear Hpred Hempty. induction range as [|x range IH].
    + unfold delivered, unmatched, with_key. simpl.
      induction (entries this) as [|ke m IHm]; csimpl; [done|].
      apply IHm. by apply ascending_cons in Hasc as [? _]; destruct ke.
    + destruct (map_find less (pred x) (entries this)) as [e|] eqn:Hfind.
      * unfold unmatched at 1. rewrite filter_cons_False by by rewrite Hfind.
        fold (unmatched less pred (entries this) range).
        apply map_find_elem_of in Hfind.
        apply list_elem_of_split in Hfind as (m1 & m2 & Hm).
        rewrite Hm in Hasc, IH |- *.
        destruct (ascending_app_not_elem _ _ _ _ Hasc) as [H1 H2].
        unfold delivered at 1. rewrite fmap_app, fmap_cons.
        fold (delivered less pred m1 (x :: range)).
        fold (delivered less pred m2 (x :: range)).
        rewrite !delivered_cons_other by done. simpl.
        rewrite with_key_cons, same_key_refl.
        rewrite concat_app. simpl. rewrite <- !app_assoc. simpl.
        rewrite <- Permutation_middle. constructor.
        etransitivity; [|exact IH].
        unfold delivered at 3. rewrite fmap_app, fmap_cons, concat_app.
        simpl. by rewrite <- !app_assoc.
      * unfold unmatched at 1. rewrite filter_cons_True by done.
        fold (unmatched less pred (entries this) range).
        rewrite delivered_cons_other.
        -- rewrite <- Permutation_middle. by constructor.
        -- intros [[k' e'] [Hk Hin]]%list_elem_of_fmap. simpl in Hk. subst k'.
           by rewrite (map_find_Some _ _ _ Hasc Hin) in Hfind.
Qed.

(** *** The ports of the outputs *)

Lemma session_reachable (pred : value_t → predicate_result_t) this
    (σ : handler_store W (list value_t)) :
  session less pred this σ → reachable (W:=W) less pred this.
Proof.
  induction 1; try done; by constructor.
Qed.

Lemma session_separate_ports (pred : value_t → predicate_result_t) this
    (σ : handler_store W (list value_t)) :
  session less pred this σ → separate_ports (entries this) σ.
Proof.
  induction 1 as [σ|this σ value Hs [Hall Hdup]|this σ p h Hs [Hall Hdup]
                  |this σ Hs [Hall Hdup]|this σ range w Hs [Hall Hdup]].
  - split; constructor.
  - unfold out.
    destruct (map_find less value (entries this)) as [it|]; simpl; [done|].
    set (entry := {| port := {| event_handlers := length σ |}; data := [] |}).
    assert (Hold : Forall (λ ke : predicate_result_t * entry_t,
                             allocated (σ ++ [[]]) (port ke.2)) (entries this)).
    { eapply Forall_impl; [exact Hall|]. intros ke. unfold allocated.
      rewrite length_app. simpl. lia. }
    destruct (map_insert_split value entry (entries this))
      as [-> | (m1 & m2 & Hm & ->)]; [done|].
    rewrite Hm in Hall, Hdup, Hold.
    apply Forall_app in Hold as [Hold1 Hold2].
    rewrite fmap_app in Hdup. apply NoDup_app in Hdup as (Hd1 & Hd12 & Hd2).
    assert (Hfresh : ∀ m', Forall (λ ke : predicate_result_t * entry_t,
                                     allocated σ (port ke.2)) m' →
      length σ ∉ (λ ke : predicate_result_t * entry_t,
                    event_handlers (port ke.2)) <$> m').
    { intros m' Hm' [ke [Heq Hin]]%list_elem_of_fmap.
      rewrite Forall_forall in Hm'. specialize (Hm' _ Hin).
      unfold allocated in Hm'. lia. }
    apply Forall_app in Hall as [Hall1 Hall2].
    split.
    + apply Forall_app. split; [done|]. constructor; [|done].
      unfold allocated. rewrite length_app. simpl. lia.
    + rewrite fmap_app, fmap_cons. apply NoDup_app. split; [done|]. split.
      * intros a Ha. rewrite not_elem_of_cons. split; [|by apply Hd12].
        simpl. intros ->. by apply (Hfresh m1).
      * constructor; [|done]. simpl. by apply Hfresh.
  - split; [|done]. eapply Forall_impl; [exact Hall|]. intros ke.
    unfold allocated. by rewrite EventPortsFacts.length_connect.
  - split; [|done]. eapply Forall_impl; [exact Hall|]. intros ke.
    unfold allocated. simpl. rewrite length_app. simpl. lia.
  - apply session_reachable, reachable_wf in Hs as [Hwf _].
    rewrite receive_spec by done. by simpl.
Qed.

(** X9. The outputs of different keys have different ports: in a splitter and
    store that a program has brought about, the ports of two keys are both
    allocated and have vectors of their own, so a handler connected to the
    output of one key is not among the handlers of the other key's output
    and is not called with its elements. *)
Theorem outputs_have_ports_of_their_own
    (pred : value_t → predicate_result_t) (this : splitter)
    (σ : handler_store W (list value_t)) (k1 k2 : predicate_result_t)
    (e1 e2 : entry_t) (h : handler_t W (list value_t))
    (r : list value_t) (w : W) :
  session less pred this σ →
  map_find less k1 (entries this) = Some e1 →
  map_find less k2 (entries this) = Some e2 →
  k1 ≠ k2 →
  allocated σ (port e1) ∧ allocated σ (port e2)
  ∧ event_handlers (port e1) ≠ event_handlers (port e2)
  ∧ targets (connect (port e1) h σ) (port e1) = targets σ (port e1) ++ [h]
  ∧ targets (connect (port e1) h σ) (port e2) = targets σ (port e2)
  ∧ fire (port e2) r (connect (port e1) h σ) w = fire (port e2) r σ w.
Proof.
  intros Hs H1 H2 Hne.
  destruct (session_separate_ports _ _ _ Hs) as [Hall Hdup].
  apply map_find_elem_of in H1. apply map_find_elem_of in H2.
  rewrite Forall_forall in Hall.
  pose proof (Hall _ H1) as Ha1. pose proof (Hall _ H2) as Ha2. simpl in *.
  assert (Hports : event_handlers (port e1) ≠ event_handlers (port e2)).
  { intros Heq.
    apply list_elem_of_lookup in H1 as [i Hi], H2 as [j Hj].
    assert (i = j) as ->.
    { eapply (NoDup_lookup _ i j); [exact Hdup| |].
      - rewrite list_lookup_fmap, Hi. reflexivity.
      - rewrite list_lookup_fmap, Hj. simpl. by rewrite Heq. }
    rewrite Hi in Hj. by injection Hj. }
  split; [done|]. split; [done|]. split; [done|]. split; [|split].
  - by apply EventPortsFacts.targets_connect.
  - by apply EventPortsFacts.targets_connect_ne.
  - unfold fire. by rewrite EventPortsFacts.targets_connect_ne.
Qed.

End list_splitter.

(** [std::less<int>] on [Z] is a strict total order. *)
Lemma Zlt_irrefl a : (a <? a)%Z = false.
Proof. apply Z.ltb_irrefl. Qed.

Lemma Zlt_trans a b c : (a <? b)%Z = true → (b <? c)%Z = true → (a <? c)%Z = true.
Proof. rewrite !Z.ltb_lt. lia. Qed.

Lemma Zlt_total a b : (a <? b)%Z = false → (b <? a)%Z = false → a = b.
Proof. rewrite !Z.ltb_ge. lia. Qed.

(** The splitters of [observed] are ones a program can hold. *)
Lemma observed_reachable {value_t predicate_result_t}
    (less : predicate_result_t → predicate_result_t → bool)
    (pred : value_t → predicate_result_t) (ks : list predicate_result_t) :
  reachable (W:=list (predicate_result_t * list value_t)) less pred
    (observed less pred ks).1.
Proof.
  unfold observed. induction ks as [|k ks IH] using rev_ind; simpl.
  - constructor.
  - rewrite foldl_app; simpl.
    destruct (foldl _ _ ks) as [this σ]; simpl in *.
    pose proof (reachable_out less pred this k σ IH) as Hout.
    by destruct (out less k this σ) as [[p this'] σ'].
Qed.

(** The map of an observed splitter holds the requested keys, whatever the
    order of the requests. *)
Lemma observed_keys {value_t predicate_result_t}
    (less : predicate_result_t → predicate_result_t → bool)
    (pred : value_t → predicate_result_t) (ks : list predicate_result_t) :
  (∀ a b, less a b = false → less b a = false → a = b) →
  ∀ k, k ∈ (entries (observed less pred ks).1).*1 ↔ k ∈ ks.
Proof.
  intros Htotal. unfold observed.
  induction ks as [|k0 ks IH] using rev_ind; intros k; simpl.
  - done.
  - rewrite foldl_app, elem_of_app, list_elem_of_singleton, <- IH; simpl.
    destruct (foldl _ _ ks) as [this σ]; simpl. unfold out.
    destruct (map_find less k0 (entries this)) as [e|] eqn:Hfind; simpl.
    + split; [by left|]. intros [?| ->]; [done|].
      apply list_elem_of_fmap. exists (k0, e). split; [done|].
      by apply (map_find_elem_of less Htotal).
    + rewrite (map_insert_keys less Htotal). tauto.
Qed.

Lemma splitter_drop_accounting_witness :
  let pred := (λ x : Z, x `mod` 3)%Z in
  let this := (observed Z.ltb pred [2; 1]%Z).1 in
  let σ := (observed Z.ltb pred [2; 1]%Z).2 in
  ∃ eA eB this' w',
    map_find Z.ltb 1%Z (entries this) = Some eA
    ∧ map_find Z.ltb 2%Z (entries this) = Some eB
    ∧ receive Z.ltb [1; 4; 3; 2]%Z this σ [] = (this', w')
    ∧ w' = (if (1 <? 2)%Z
            then fire (port eB) [2%Z] σ (fire (port eA) [1; 4]%Z σ [])
            else fire (port eA) [1; 4]%Z σ (fire (port eB) [2%Z] σ []))
    ∧ out_num_dropped this' = size_t_incr (out_num_dropped this)
    ∧ (0 ≤ out_num_dropped this < SIZE_MAX →
       out_num_dropped this' = out_num_dropped this + 1)%Z
    ∧ entries this' = entries this.
Proof.
  intros pred this σ.
  apply (splitter_drop_accounting Z.ltb Zlt_irrefl Zlt_trans Zlt_total
           pred this σ [] 1%Z 2%Z 0%Z 1%Z 4%Z 3%Z 2%Z);
    try reflexivity; try discriminate.
  - apply observed_reachable.
  - intros k. change (k ∈ [1; 2]%Z ↔ k = 1%Z ∨ k = 2%Z).
    rewrite !elem_of_cons, elem_of_nil. tauto.
Defined.

Lemma outputs_fire_in_key_order_witness :
  let pred := (λ x : Z, x `mod` 3)%Z in
  let this := (observed Z.ltb pred [2; 1]%Z).1 in
  let σ := (observed Z.ltb pred [2; 1]%Z).2 in
  StronglySorted (λ a b, (a <? b)%Z = true) (entries this).*1
  ∧ (receive Z.ltb [1; 4; 3; 2]%Z this σ []).2
    = foldl (λ w ke,
               fire (port ke.2) (with_key Z.ltb pred ke.1 [1; 4; 3; 2]%Z) σ w)
        [] (entries this)
  ∧ entries (receive Z.ltb [1; 4; 3; 2]%Z this σ []).1 = entries this.
Proof.
  intros pred this σ.
  apply (outputs_fire_in_key_order Z.ltb Zlt_irrefl Zlt_trans Zlt_total pred).
  apply observed_reachable.
Defined.

(** C5, as the specification has it, fails: request the output of key 2,
    then that of key 1, and fire; the port of key 1 fires first. *)
Lemma fires_in_first_seen_order_fails : ¬ fires_in_first_seen_order.
Proof.
  intros H. specialize (H (λ x, x) [2; 1]%Z [1; 2]%Z).
  vm_compute in H. discriminate H.
Qed.

(** The record of that firing. *)
Example key_order_example :
  let '(this, σ) := observed Z.ltb (λ x : Z, x) [2; 1]%Z in
  (receive Z.ltb [1; 2]%Z this σ []).2 = [(1, [1]); (2, [2])]%Z.
Proof. reflexivity. Qed.

(** The splitter and store of [observed] are ones a program brings
    about. *)
Lemma observed_session {value_t predicate_result_t}
    (less : predicate_result_t → predicate_result_t → bool)
    (pred : value_t → predicate_result_t) (ks : list predicate_result_t) :
  session less pred (observed less pred ks).1 (observed less pred ks).2.
Proof.
  unfold observed. induction ks as [|k ks IH] using rev_ind; simpl.
  - constructor.
  - rewrite foldl_app; simpl.
    destruct (foldl _ _ ks) as [this σ]; simpl in *.
    pose proof (session_out less pred this σ k IH) as Hout.
    destruct (out less k this σ) as [[p this'] σ']. simpl in *.
    by constructor.
Qed.

Lemma out_twice_same_port_witness :
  let pred := (λ x : Z, x `mod` 3)%Z in
  let this := (observed Z.ltb pred [2; 1]%Z).1 in
  let σ := (observed Z.ltb pred [2; 1]%Z).2 in
  out Z.ltb 0%Z (out Z.ltb 0%Z this σ).1.2 (out Z.ltb 0%Z this σ).2
  = out Z.ltb 0%Z this σ
  ∧ (entries (out Z.ltb 0%Z this σ).1.2).*1 = [0; 1; 2]%Z.
Proof.
  intros pred this σ.
  destruct (out_twice_same_port Z.ltb Zlt_irrefl Zlt_trans Zlt_total
              pred this σ 0%Z) as (H & _).
  - apply observed_reachable.
  - split; [exact H | reflexivity].
Defined.

Lemma receive_empty_range_fires_every_output_witness :
  let pred := (λ x : Z, x `mod` 3)%Z in
  let this := (observed Z.ltb pred [2; 1]%Z).1 in
  let σ := (observed Z.ltb pred [2; 1]%Z).2 in
  receive Z.ltb [] this σ [] = (this, [(1, []); (2, [])]%Z).
Proof.
  intros pred this σ.
  rewrite (receive_empty_range_fires_every_output Z.ltb Zlt_irrefl Zlt_trans
             Zlt_total pred this σ []).
  - reflexivity.
  - apply observed_reachable.
Defined.

Lemma receive_without_outputs_drops_all_witness :
  let this := list_splitter_ctor (λ x : Z, x `mod` 3)%Z in
  (receive (W:=nat) Z.ltb [1; 4; 3]%Z this [] 7).2 = 7
  ∧ out_num_dropped (receive (W:=nat) Z.ltb [1; 4; 3]%Z this [] 7).1 = 3%Z.
Proof.
  intros this.
  destruct (receive_without_outputs_drops_all (W:=nat) Z.ltb Zlt_irrefl
              Zlt_trans Zlt_total this [] 7 [1; 4; 3]%Z) as (H1 & _ & H2).
  - reflexivity.
  - unfold SIZE_MAX. simpl. lia.
  - split; [exact H1 | exact H2].
Defined.

Lemma receive_counts_unmatched_elements_witness :
  let pred := (λ x : Z, x `mod` 3)%Z in
  let this := (observed Z.ltb pred [2; 1]%Z).1 in
  let σ := (observed Z.ltb pred [2; 1]%Z).2 in
  out_num_dropped (receive Z.ltb [3; 1; 6; 2; 9]%Z this σ []).1 = 3%Z.
Proof.
  intros pred this σ.
  destruct (receive_counts_unmatched_elements Z.ltb Zlt_irrefl Zlt_trans
              Zlt_total pred this σ [] [3; 1; 6; 2; 9]%Z) as (_ & _ & H).
  - apply observed_reachable.
  - unfold SIZE_MAX. simpl. lia.
  - apply H. unfold SIZE_MAX. vm_compute. discriminate.
Defined.

Lemma receive_partitions_the_range_witness :
  let pred := (λ x : Z, x `mod` 3)%Z in
  let this := (observed Z.ltb pred [2; 1]%Z).1 in
  let σ := (observed Z.ltb pred [2; 1]%Z).2 in
  ([1; 4; 2; 5] ++ [3; 6] ≡ₚ [3; 1; 2; 4; 6; 5])%Z.
Proof.
  intros pred this σ.
  destruct (receive_partitions_the_range Z.ltb Zlt_irrefl Zlt_trans Zlt_total
              pred this σ [] [3; 1; 2; 4; 6; 5]%Z) as (_ & _ & H).
  - apply observed_reachable.
  - exact H.
Defined.

Lemma outputs_have_ports_of_their_own_witness :
  let pred := (λ x : Z, x `mod` 3)%Z in
  let this := (observed Z.ltb pred [2; 1]%Z).1 in
  let σ := (observed Z.ltb pred [2; 1]%Z).2 in
  let e1 := {| port := {| event_handlers := 1 |}; data := [] |} in
  let e2 := {| port := {| event_handlers := 0 |}; data := [] |} in
  map_find Z.ltb 1%Z (entries this) = Some e1
  ∧ map_find Z.ltb 2%Z (entries this) = Some e2
  ∧ fire (port e2) [2%Z] (connect (port e1) (λ _ log, log) σ) []
    = fire (port e2) [2%Z] σ [].
Proof.
  intros pred this σ e1 e2. split; [reflexivity|]. split; [reflexivity|].
  destruct (outputs_have_ports_of_their_own Z.ltb Zlt_irrefl Zlt_trans
              Zlt_total pred this σ 1%Z 2%Z e1 e2 (λ _ log, log) [2%Z] [])
    as (_ & _ & _ & _ & _ & H).
  - apply observed_session.
  - reflexivity.
  - reflexivity.
  - discriminate.
  - exact H.
Defined.

End ListSplitterFacts.

Module ListCollectorFacts.
Import ListCollector.

Section list_collector.
Context {value_t : Type}.
Implicit Types (this : list_collector value_t) (range : list value_t).

Lemma get_state_result this : (get_state this).1 = buffer_collect this.
Proof. done. Qed.

Lemma get_state_collect this : buffer_collect (get_state this).2 = [].
Proof. done. Qed.

Lemma receive_all_collect (ranges : list (list value_t)) : ∀ this,
  buffer_collect (foldl (λ c range, receive range c) this ranges)
  = buffer_collect this ++ concat ranges.
Proof.
  induction ranges as [|range ranges IH]; intros this; simpl.
  - by rewrite app_nil_r.
  - rewrite IH. simpl. by rewrite <- app_assoc.
Qed.

(** Nothing is lost and nothing is handed out twice: the pulled results
    one after the other, followed by what still waits in the collector, are
    what was waiting before followed by everything fired in. *)
Lemma run_conserves (uses : list (@use value_t)) : ∀ this,
  concat (run uses this).1 ++ buffer_collect (run uses this).2
  = buffer_collect this ++ concat (fired uses).
Proof.
  induction uses as [|[range|] uses IH]; intros this; simpl.
  - by rewrite app_nil_r.
  - rewrite IH. simpl. by rewrite <- app_assoc.
  - specialize (IH {| buffer_collect := []; buffer_state := buffer_collect this |}).
    destruct (run uses _) as [rest final]; simpl in *.
    by rewrite <- app_assoc, IH.
Qed.
End list_collector.

(** C6. Collector windowing. A pull right after construction yields the
    empty range; after a firing with [1; 2; 3] (or any other range) the pull
    yields that range; a pull that follows a pull with no firing in between
    yields the empty range, for every collector. Over any run of firings and
    pulls from construction on, the pulled results followed by what still
    waits are exactly the elements fired in, in order: each element comes
    out in one pull only. *)
Theorem collector_windowing (value_t : Type) (range : list value_t)
    (this : list_collector value_t) (uses : list (@use value_t)) :
  (get_state (list_collector_ctor (value_t:=Z))).1 = []
  ∧ (get_state (receive [1; 2; 3]%Z list_collector_ctor)).1 = [1; 2; 3]%Z
  ∧ (get_state (get_state (receive [1; 2; 3]%Z list_collector_ctor)).2).1 = []
  ∧ (get_state (list_collector_ctor (value_t:=value_t))).1 = []
  ∧ (get_state (receive range list_collector_ctor)).1 = range
  ∧ (get_state (receive range (get_state this).2)).1 = range
  ∧ (get_state (get_state this).2).1 = []
  ∧ concat (run uses list_collector_ctor).1
      ++ buffer_collect (run uses list_collector_ctor).2
    = concat (fired uses).
Proof.
  repeat split. apply (run_conserves uses list_collector_ctor).
Qed.

(** C10. The pull that follows a sequence of firings yields the fired
    ranges one after the other, in the order of arrival: from construction
    on, and after any earlier pull. *)
Theorem pull_concatenates_received (value_t : Type)
    (ranges : list (list value_t)) (this : list_collector value_t) :
  (get_state (foldl (λ c range, receive range c) list_collector_ctor ranges)).1
  = concat ranges
  ∧ (get_state
       (foldl (λ c range, receive range c) (get_state this).2 ranges)).1
    = concat ranges.
Proof.
  rewrite !get_state_result, !receive_all_collect. done.
Qed.

(** X10. The range that a pull has handed out lies in [buffer_state], and a
    firing writes to [buffer_collect] only: whatever is fired in after a
    pull, the range of that pull stays as it was until the next pull, which
    puts in its place exactly what was fired in in between. *)
Theorem pulled_range_survives_receives (value_t : Type)
    (ranges : list (list value_t)) (this : list_collector value_t) :
  let pulled := get_state this in
  let later := foldl (λ c range, receive range c) pulled.2 ranges in
  buffer_state later = pulled.1
  ∧ buffer_state (get_state later).2 = concat ranges
  ∧ buffer_collect (get_state later).2 = [].
Proof.
  intros pulled later.
  assert (Hstate : ∀ c, buffer_state (foldl (λ c range, receive range c) c ranges)
                        = buffer_state c).
  { induction ranges as [|range ranges' IH]; intros c; simpl; [done|].
    by rewrite IH. }
  split; [apply Hstate|]. split; [|done].
  simpl. unfold later. by rewrite receive_all_collect.
Qed.

End ListCollectorFacts.

Module StateNodesFacts.
Import StateNodes.

Section merge_node.
Context {W T R : Type}.
Implicit Types (σ : list (option (source_t W T))) (w : W).

Lemma get_connect σ source sink w :
  con sink < length σ → get sink (connect source sink σ) w = Some (source w).
Proof.
  intros Hlt. unfold get, connect. by rewrite list_lookup_insert_eq.
Qed.

Lemma get_connect_ne σ source sink sink' w :
  con sink ≠ con sink' → get sink' (connect source sink σ) w = get sink' σ w.
Proof.
  intros Hne. unfold get, connect. by rewrite list_lookup_insert_ne.
Qed.

Lemma length_connect_state σ source sink :
  length (connect source sink σ) = length σ.
Proof. unfold connect. by rewrite length_insert. Qed.

Lemma merge_two (f : T → T → R) σ :
  merge (W:=W) 2 f σ
  = ({| nr_of_arguments := 2;
        in_ports := [{| con := length σ |}; {| con := S (length σ) |}];
        op := f |},
     σ ++ [None; None]).
Proof.
  unfold merge; simpl. rewrite length_app, Nat.add_1_r.
  by rewrite <- app_assoc.
Qed.

(** One invocation of a node of two arguments, for each of the two orders
    of evaluation: each sink is pulled once, and the value pulled from sink
    [i] is argument [i]. *)
Lemma invoke_left_to_right (f : T → T → R) in0 in1 σ w :
  invoke [0; 1]
    {| nr_of_arguments := 2; in_ports := [in0; in1]; op := f |} σ w
  = match get in0 σ w with
    | Some (a, w1) =>
        match get in1 σ w1 with
        | Some (b, w2) => Some (f a b, w2)
        | None => None
        end
    | None => None
    end.
Proof.
  unfold invoke, invoke_helper; simpl.
  destruct (get in0 σ w) as [[a w1]|]; [|done].
  by destruct (get in1 σ w1) as [[b w2]|].
Qed.

Lemma invoke_right_to_left (f : T → T → R) in0 in1 σ w :
  invoke [1; 0]
    {| nr_of_arguments := 2; in_ports := [in0; in1]; op := f |} σ w
  = match get in1 σ w with
    | Some (b, w1) =>
        match get in0 σ w1 with
        | Some (a, w2) => Some (f a b, w2)
        | None => None
        end
    | None => None
    end.
Proof.
  unfold invoke, invoke_helper; simpl.
  destruct (get in1 σ w) as [[b w1]|]; [|done].
  by destruct (get in0 σ w1) as [[a w2]|].
Qed.
End merge_node.

Lemma evaluation_order_two order :
  evaluation_order 2 order → order = [0; 1] ∨ order = [1; 0].
Proof.
  unfold evaluation_order; simpl. intros Hp. symmetry in Hp.
  by apply Permutation_length_2_inv in Hp.
Qed.

(** C7, as the code has it. Build a merge node from a two-argument [f],
    connect sink 0 to a source of 3 and sink 1 to a source of 4: an
    invocation returns [f 3 4]; connect sink 0 to a source of 5 instead and
    invoke again: [f 5 4], nothing is cached. With any two sources [s0] and
    [s1], an invocation pulls each sink once and passes the value of sink [i]
    as argument [i]; the sinks are pulled in the order in which the compiler
    evaluates the arguments of the call, which is either of the two. *)
Theorem merge_node_pulls_every_input
    (W R : Type) (f : Z → Z → R) (σ : list (option (source_t W Z))) (w : W)
    (order : list nat) (s0 s1 : source_t W Z) :
  evaluation_order 2 order →
  ∃ node in0 in1 σ0,
    merge 2 f σ = (node, σ0)
    ∧ in_ 0 node = Some in0 ∧ in_ 1 node = Some in1
    ∧ invoke order node
        (connect (λ w, (4%Z, w)) in1 (connect (λ w, (3%Z, w)) in0 σ0)) w
      = Some (f 3%Z 4%Z, w)
    ∧ invoke order node
        (connect (λ w, (5%Z, w)) in0
           (connect (λ w, (4%Z, w)) in1 (connect (λ w, (3%Z, w)) in0 σ0))) w
      = Some (f 5%Z 4%Z, w)
    ∧ ((order = [0; 1]
        ∧ invoke order node (connect s1 in1 (connect s0 in0 σ0)) w
          = (let '(a, w1) := s0 w in let '(b, w2) := s1 w1 in
             Some (f a b, w2)))
       ∨ (order = [1; 0]
          ∧ invoke order node (connect s1 in1 (connect s0 in0 σ0)) w
            = (let '(b, w1) := s1 w in let '(a, w2) := s0 w1 in
               Some (f a b, w2)))).
Proof.
  intros Horder. rewrite merge_two. eexists _, _, _, _.
  split; [reflexivity|]. split; [reflexivity|]. split; [reflexivity|].
  set (in0 := {| con := length σ |}). set (in1 := {| con := S (length σ) |}).
  set (σ0 := σ ++ [None; None]).
  assert (H0 : con in0 < length σ0).
  { unfold σ0. rewrite length_app; simpl. lia. }
  assert (H1 : con in1 < length σ0).
  { unfold σ0. rewrite length_app; simpl. lia. }
  assert (Hne : con in1 ≠ con in0) by (simpl; lia).
  assert (Hget0 : ∀ (a b : source_t W Z) w,
    get in0 (connect b in1 (connect a in0 σ0)) w = Some (a w)).
  { intros a b w'. rewrite get_connect_ne by done. by apply get_connect. }
  assert (Hget1 : ∀ (a b : source_t W Z) w,
    get in1 (connect b in1 (connect a in0 σ0)) w = Some (b w)).
  { intros a b w'. apply get_connect. by rewrite length_connect_state. }
  assert (Hget0' : ∀ (a b c : source_t W Z) w,
    get in0 (connect c in0 (connect b in1 (connect a in0 σ0))) w = Some (c w)).
  { intros a b c w'. apply get_connect. by rewrite !length_connect_state. }
  assert (Hget1' : ∀ (a b c : source_t W Z) w,
    get in1 (connect c in0 (connect b in1 (connect a in0 σ0))) w = Some (b w)).
  { intros a b c w'. rewrite get_connect_ne by done. apply Hget1. }
  destruct (evaluation_order_two _ Horder) as [-> | ->].
  - rewrite !invoke_left_to_right. split; [|split].
    + rewrite Hget0. cbn beta iota. by rewrite Hget1.
    + rewrite Hget0'. cbn beta iota. by rewrite Hget1'.
    + left. split; [done|]. rewrite Hget0.
      destruct (s0 w) as [a w1]. rewrite Hget1. by destruct (s1 w1).
  - rewrite !invoke_right_to_left. split; [|split].
    + rewrite Hget1. cbn beta iota. by rewrite Hget0.
    + rewrite Hget1'. cbn beta iota. by rewrite Hget0'.
    + right. split; [done|]. rewrite Hget1.
      destruct (s1 w) as [b w1]. rewrite Hget0. by destruct (s0 w1).
Qed.

Lemma merge_node_pulls_every_input_witness :
  invoke [1; 0]
    {| nr_of_arguments := 2; in_ports := [{| con := 0 |}; {| con := 1 |}];
       op := Z.sub |}
    [Some (recording_source 0 3%Z); Some (recording_source 1 4%Z)] []
  = Some ((-1)%Z, [1; 0]).
Proof.
  destruct (merge_node_pulls_every_input (list nat) Z Z.sub [] [] [1; 0]
              (recording_source 0 3%Z) (recording_source 1 4%Z))
    as (node & in0 & in1 & σ0 & Hm & Hin0 & Hin1 & _ & _ & Hpull).
  { apply perm_swap. }
  injection Hm as <- <-. injection Hin0 as <-. injection Hin1 as <-.
  destruct Hpull as [[Ho _] | [_ Hpull]]; [discriminate Ho | exact Hpull].
Defined.

(** C7, as the specification has it, fails: under right-to-left evaluation
    of the arguments, which a compiler may choose, sink 1 is pulled before
    sink 0. *)
Lemma pulls_in_argument_order_fails : ¬ pulls_in_argument_order.
Proof.
  intros H. specialize (H [1; 0] (perm_swap 0 1 [])).
  vm_compute in H. discriminate H.
Qed.

(** *** Merge nodes of any number of arguments *)

Section merge_node_n.
Context {W T R : Type}.
Implicit Types (σ : list (option (source_t W T))) (w : W).
Implicit Types (tup : list state_sink) (vs : list T) (order : list nat).

Lemma call_op_total n : ∀ (op : @signature T R n) vs,
  length vs = n → is_Some (call_op n op vs).
Proof.
  induction n as [|n IH]; intros op [|v vs] Hlen; simpl in *; try done.
  apply IH. lia.
Qed.

Lemma all_values_Some vs : all_values (Some <$> vs) = Some vs.
Proof. induction vs as [|v vs IH]; csimpl; [done|]. by rewrite IH. Qed.

(** The values kept after the arguments [order] have been evaluated. *)
Lemma kept_values_lookup vs order : ∀ (values : list (option T)) j,
  length (foldl (λ vals i, <[i := vs !! i]> vals) values order) = length values
  ∧ (j ∉ order →
     foldl (λ vals i, <[i := vs !! i]> vals) values order !! j = values !! j)
  ∧ (j ∈ order → j < length values →
     foldl (λ vals i, <[i := vs !! i]> vals) values order !! j
     = Some (vs !! j)).
Proof.
  induction order as [|i order IH]; intros values j; simpl.
  - split; [done|]. split; [done|]. by intros ?%elem_of_nil.
  - destruct (IH (<[i := vs !! i]> values) j) as (Hlen & Hnot & Hin).
    rewrite length_insert in Hlen, Hin. split; [done|]. split.
    + intros [Hne Hj]%not_elem_of_cons. rewrite Hnot by done.
      by rewrite list_lookup_insert_ne.
    + intros Hj Hlt. destruct (decide (j ∈ order)) as [Hjo|Hjo]; [by apply Hin|].
      apply elem_of_cons in Hj as [-> | Hj]; [|done].
      rewrite Hnot by done. by rewrite list_lookup_insert_eq.
Qed.

Lemma kept_values_all vs order :
  order ≡ₚ seq 0 (length vs) →
  foldl (λ vals i, <[i := vs !! i]> vals) (replicate (length vs) None) order
  = Some <$> vs.
Proof.
  intros Horder. apply list_eq. intros j.
  destruct (kept_values_lookup vs order (replicate (length vs) None) j)
    as (Hlen & Hnot & Hin).
  rewrite length_replicate in Hlen, Hin. rewrite list_lookup_fmap.
  destruct (decide (j < length vs)) as [Hlt|Hge].
  - rewrite Hin; [|rewrite Horder; apply elem_of_seq; lia|done].
    by destruct (lookup_lt_is_Some_2 vs j Hlt) as [v ->].
  - rewrite (lookup_ge_None_2 vs j) by lia.
    apply lookup_ge_None_2. lia.
Qed.

(** One invocation, when what a sink yields does not depend on the time of
    the pull: sink [i] yields [v_i] and has the effect [step i]. *)
Lemma pull_arguments_spec tup σ vs (step : nat → W → W) order :
  (∀ i sink, tup !! i = Some sink →
     ∃ v, vs !! i = Some v ∧ ∀ w, get sink σ w = Some (v, step i w)) →
  Forall (λ i, i < length tup) order →
  ∀ values w,
    pull_arguments order tup σ values w
    = Some (foldl (λ vals i, <[i := vs !! i]> vals) values order,
            foldl (λ w i, step i w) w order).
Proof.
  intros Hget. induction 1 as [|i order Hi _ IH]; intros values w; simpl.
  - done.
  - destruct (lookup_lt_is_Some_2 tup i Hi) as [sink Hsink].
    destruct (Hget i sink Hsink) as (v & Hv & Hpull).
    by rewrite Hsink, Hpull, IH, Hv.
Qed.

Lemma invoke_spec n (op : @signature T R n) tup σ vs (step : nat → W → W)
    order w :
  length tup = n → length vs = n → evaluation_order n order →
  (∀ i sink, tup !! i = Some sink →
     ∃ v, vs !! i = Some v ∧ ∀ w, get sink σ w = Some (v, step i w)) →
  invoke order {| nr_of_arguments := n; in_ports := tup; op := op |} σ w
  = (λ r : R, (r, foldl (λ w i, step i w) w order)) <$> call_op n op vs.
Proof.
  intros Htup Hvs Horder Hget. unfold invoke, invoke_helper. simpl.
  rewrite (pull_arguments_spec tup σ vs step order Hget).
  - subst n. rewrite <- Hvs at 1. rewrite kept_values_all by by rewrite Hvs.
    rewrite all_values_Some. by destruct (call_op _ op vs).
  - rewrite Forall_forall. intros i Hi. rewrite Htup.
    unfold evaluation_order in Horder. rewrite Horder in Hi.
    apply elem_of_seq in Hi. lia.
Qed.
End merge_node_n.

(** X11. For any number of arguments: when every sink is connected to a source
    that yields its value without an effect, an invocation succeeds and
    returns the operation applied to the sinks' values, the value of sink [i]
    as argument [i], whichever order of evaluation is chosen; the state is
    left as it was. *)
Theorem merge_result_independent_of_evaluation_order
    (W T R : Type) (n : nat) (op : @signature T R n)
    (tup : list state_sink) (σ : list (option (source_t W T)))
    (vs : list T) (order1 order2 : list nat) (w : W) :
  length tup = n → length vs = n →
  evaluation_order n order1 → evaluation_order n order2 →
  (∀ i sink v, tup !! i = Some sink → vs !! i = Some v →
     ∀ w, get sink σ w = Some (v, w)) →
  ∃ r, call_op n op vs = Some r
       ∧ invoke order1 {| nr_of_arguments := n; in_ports := tup; op := op |} σ w
         = Some (r, w)
       ∧ invoke order2 {| nr_of_arguments := n; in_ports := tup; op := op |} σ w
         = Some (r, w).
Proof.
  intros Htup Hvs H1 H2 Hget.
  destruct (call_op_total n op vs Hvs) as [r Hr]. exists r. split; [done|].
  assert (Hget' : ∀ i sink, tup !! i = Some sink →
    ∃ v, vs !! i = Some v ∧ ∀ w, get sink σ w = Some (v, (λ _ w, w) i w)).
  { intros i sink Hsink.
    destruct (lookup_lt_is_Some_2 vs i) as [v Hv].
    { rewrite Hvs, <- Htup. by eapply lookup_lt_Some. }
    exists v. split; [done|]. intros w'. exact (Hget i sink v Hsink Hv w'). }
  assert (Hid : ∀ order, foldl (λ w (_ : nat), w) w order = w).
  { intros order. by induction order. }
  rewrite !(invoke_spec n op tup σ vs (λ _ w, w)) by done.
  by rewrite Hr, !Hid.
Qed.

Lemma merge_result_independent_of_evaluation_order_witness :
  let σ : list (option (source_t unit Z)) :=
    [Some (λ w, (7, w)); Some (λ w, (2, w)); Some (λ w, (3, w))]%Z in
  let node := {| nr_of_arguments := 3;
                 in_ports := [{| con := 0 |}; {| con := 1 |}; {| con := 2 |}];
                 op := (λ a b c, a - b * c)%Z |} in
  invoke [2; 0; 1] node σ tt = Some (1%Z, tt)
  ∧ invoke [0; 1; 2] node σ tt = Some (1%Z, tt).
Proof.
  intros σ node.
  destruct (merge_result_independent_of_evaluation_order unit Z Z 3
              (λ a b c, a - b * c)%Z
              [{| con := 0 |}; {| con := 1 |}; {| con := 2 |}] σ
              [7; 2; 3]%Z [2; 0; 1] [0; 1; 2] tt)
    as (r & Hr & H1 & H2); [reflexivity|reflexivity| | | |].
  - unfold evaluation_order. simpl.
    etransitivity; [apply perm_swap|]. apply perm_skip, perm_swap.
  - unfold evaluation_order. reflexivity.
  - intros [|[|[|i]]] sink v Hs Hv w; simplify_eq/=; reflexivity.
  - injection Hr as <-. split; [exact H1 | exact H2].
Defined.

(** X12. For any number of arguments: with sources that record the pull of
    their sink, one invocation records the sinks in the order of evaluation,
    each sink once and none left out. *)
Theorem merge_pulls_every_sink_once
    (T R : Type) (n : nat) (op : @signature T R n)
    (tup : list state_sink) (σ : list (option (source_t (list nat) T)))
    (vs : list T) (order : list nat) (log : list nat) :
  length tup = n → length vs = n → evaluation_order n order →
  (∀ i sink v, tup !! i = Some sink → vs !! i = Some v →
     ∀ log, get sink σ log = Some (recording_source i v log)) →
  ∃ r, call_op n op vs = Some r
       ∧ invoke order {| nr_of_arguments := n; in_ports := tup; op := op |}
           σ log
         = Some (r, log ++ order)
       ∧ order ≡ₚ seq 0 n.
Proof.
  intros Htup Hvs Horder Hget.
  destruct (call_op_total n op vs Hvs) as [r Hr]. exists r. split; [done|].
  split; [|done].
  assert (Hget' : ∀ i sink, tup !! i = Some sink →
    ∃ v, vs !! i = Some v
         ∧ ∀ log, get sink σ log = Some (v, (λ i log, log ++ [i]) i log)).
  { intros i sink Hsink.
    destruct (lookup_lt_is_Some_2 vs i) as [v Hv].
    { rewrite Hvs, <- Htup. by eapply lookup_lt_Some. }
    exists v. split; [done|]. intros log'. by rewrite (Hget i sink v). }
  assert (Hlog : ∀ (order log : list nat),
    foldl (λ log i, log ++ [i]) log order = log ++ order).
  { clear. intros order. induction order as [|i order IH]; intros log; simpl.
    - by rewrite app_nil_r.
    - by rewrite IH, <- app_assoc. }
  rewrite (invoke_spec n op tup σ vs (λ i (log : list nat), log ++ [i]))
    by done.
  by rewrite Hr, Hlog.
Qed.

Lemma merge_pulls_every_sink_once_witness :
  let σ : list (option (source_t (list nat) Z)) :=
    [Some (recording_source 0 7%Z); Some (recording_source 1 2%Z);
     Some (recording_source 2 3%Z)] in
  let node := {| nr_of_arguments := 3;
                 in_ports := [{| con := 0 |}; {| con := 1 |}; {| con := 2 |}];
                 op := (λ a b c, a - b * c)%Z |} in
  invoke [2; 0; 1] node σ [] = Some (1%Z, [2; 0; 1]).
Proof.
  intros σ node.
  destruct (merge_pulls_every_sink_once Z Z 3 (λ a b c, a - b * c)%Z
              [{| con := 0 |}; {| con := 1 |}; {| con := 2 |}] σ
              [7; 2; 3]%Z [2; 0; 1] [])
    as (r & Hr & H & _); [reflexivity|reflexivity| | |].
  - unfold evaluation_order. simpl.
    etransitivity; [apply perm_swap|]. apply perm_skip, perm_swap.
  - intros [|[|[|i]]] sink v Hs Hv w; simplify_eq/=; reflexivity.
  - injection Hr as <-. exact H.
Defined.

End StateNodesFacts.

Module BaseNodeFacts.
Import BaseNode.

Abbreviation L := forest_leading_edge.
Abbreviation T := forest_trailing_edge.

Implicit Types (order pre inner post rest : list position) (i j : position).
Implicit Types (open : list nat) (n m : nat).

(** *** Ranges of the iteration *)

Lemma seek_app i pre post : i ∉ pre → seek i (pre ++ i :: post) = i :: post.
Proof.
  induction pre as [|j pre IH]; simpl; intros Hi.
  - by rewrite decide_True.
  - apply not_elem_of_cons in Hi as [Hne Hi].
    rewrite decide_False by done. by apply IH.
Qed.

Lemma seek_notin i order : i ∉ order → seek i order = [].
Proof.
  induction order as [|j order IH]; simpl; intros Hi; [done|].
  apply not_elem_of_cons in Hi as [Hne Hi].
  rewrite decide_False by done. by apply IH.
Qed.

Lemma until_app i pre post : i ∉ pre → until (Some i) (pre ++ i :: post) = pre.
Proof.
  induction pre as [|j pre IH]; simpl; intros Hi.
  - by rewrite decide_True.
  - apply not_elem_of_cons in Hi as [Hne Hi].
    rewrite decide_False by congruence. by rewrite IH.
Qed.

Lemma until_notin i order : i ∉ order → until (Some i) order = order.
Proof.
  induction order as [|j order IH]; simpl; intros Hi; [done|].
  apply not_elem_of_cons in Hi as [Hne Hi].
  rewrite decide_False by congruence. by rewrite IH.
Qed.

Lemma until_end order : until None order = order.
Proof. induction order as [|j order IH]; simpl; [done|]. by rewrite IH. Qed.

Lemma nodes_of_app order1 order2 :
  nodes_of (order1 ++ order2) = nodes_of order1 ++ nodes_of order2.
Proof. unfold nodes_of. by rewrite filter_app, fmap_app. Qed.

Lemma nodes_of_leading n order : nodes_of ((n, L) :: order) = n :: nodes_of order.
Proof. unfold nodes_of. by rewrite filter_cons_True. Qed.

Lemma nodes_of_trailing n order : nodes_of ((n, T) :: order) = nodes_of order.
Proof. unfold nodes_of. by rewrite filter_cons_False. Qed.

Lemma elem_of_nodes_of n order : n ∈ nodes_of order ↔ (n, L) ∈ order.
Proof.
  unfold nodes_of. rewrite list_elem_of_fmap. split.
  - intros ([m e] & -> & [He Hin]%list_elem_of_filter). simpl in *. by subst e.
  - intros Hin. exists (n, L). split; [done|]. by apply list_elem_of_filter.
Qed.

(** *** Nesting *)

Lemma nesting_app order1 order2 open :
  nesting open (order1 ++ order2)
  = nesting open order1 ≫= λ open', nesting open' order2.
Proof.
  revert open. induction order1 as [|[n []] order1 IH]; intros open; simpl.
  - done.
  - apply IH.
  - destruct open as [|m open]; [done|]. case_decide; [apply IH|done].
Qed.

(** The edge that closes an open node, and the self-contained stretch
    before it. *)
Lemma nesting_close n : ∀ rest open1 open2 final,
  nesting (open1 ++ n :: open2) rest = Some final →
  length final ≤ length open2 →
  ∃ inner post,
    rest = inner ++ (n, T) :: post
    ∧ nesting open1 inner = Some []
    ∧ nesting open2 post = Some final.
Proof.
  induction rest as [|[m []] rest IH]; intros open1 open2 final; simpl.
  - intros [= <-]. rewrite length_app; simpl. lia.
  - intros Hrest Hlen.
    destruct (IH (m :: open1) open2 final Hrest Hlen)
      as (inner & post & -> & Hinner & Hpost).
    by exists ((m, L) :: inner), post.
  - destruct open1 as [|m' open1]; simpl.
    + case_decide as Hm; [|done]. subst m. intros Hrest _.
      by exists [], rest.
    + case_decide as Hm; [|done]. subst m'. intros Hrest Hlen.
      destruct (IH open1 open2 final Hrest Hlen)
        as (inner & post & -> & Hinner & Hpost).
      exists ((m, T) :: inner), post. simpl. by rewrite decide_True.
Qed.

(** In a nested stretch an edge has its partner in the stretch, unless
    its node was open before or stays open after. *)
Lemma nesting_trailing_leading m : ∀ order open open',
  nesting open order = Some open' →
  (m, T) ∈ order → (m, L) ∈ order ∨ m ∈ open.
Proof.
  induction order as [|[n []] order IH]; intros open open'; simpl.
  - by intros _ ?%elem_of_nil.
  - intros Hn [[=]|Hin]%elem_of_cons.
    destruct (IH _ _ Hn Hin) as [?|[->|?]%elem_of_cons].
    + left. by right.
    + left. by left.
    + by right.
  - destruct open as [|n' open]; [done|]. case_decide; [subst n'|done].
    intros Hn [[= ->]|Hin]%elem_of_cons.
    + right. by left.
    + destruct (IH _ _ Hn Hin) as [?|?].
      * left. by right.
      * right. by right.
Qed.

Lemma nesting_open_closed m : ∀ order open open',
  nesting open order = Some open' →
  m ∈ open → (m, T) ∈ order ∨ m ∈ open'.
Proof.
  induction order as [|[n []] order IH]; intros open open'; simpl.
  - intros [= <-] ?. by right.
  - intros Hn Hin.
    destruct (IH (n :: open) open' Hn) as [?|?]; [by right| |by right].
    left. by right.
  - destruct open as [|n' open]; [done|]. case_decide; [subst n'|done].
    intros Hn [->|Hin]%elem_of_cons.
    + left. by left.
    + destruct (IH _ _ Hn Hin) as [?|?]; [|by right]. left. by right.
Qed.

Lemma nesting_leading_trailing m : ∀ order open open',
  nesting open order = Some open' →
  (m, L) ∈ order → (m, T) ∈ order ∨ m ∈ open'.
Proof.
  induction order as [|[n []] order IH]; intros open open'; simpl.
  - by intros _ ?%elem_of_nil.
  - intros Hn [[= ->]|Hin]%elem_of_cons.
    + destruct (nesting_open_closed n _ _ _ Hn) as [?|?];
        [by left| |by right]. left. by right.
    + destruct (IH _ _ Hn Hin) as [?|?]; [|by right]. left. by right.
  - destruct open as [|n' open]; [done|]. case_decide; [subst n'|done].
    intros Hn [[=]|Hin]%elem_of_cons.
    destruct (IH _ _ Hn Hin) as [?|?]; [|by right]. left. by right.
Qed.

Lemma closed_leading n order : closed ((n, L) :: order) = closed order.
Proof. unfold closed. by rewrite filter_cons_False. Qed.

Lemma closed_trailing n order : closed ((n, T) :: order) = n :: closed order.
Proof. unfold closed. by rewrite filter_cons_True. Qed.

Lemma elem_of_closed n order : n ∈ closed order ↔ (n, T) ∈ order.
Proof.
  unfold closed. rewrite list_elem_of_fmap. split.
  - intros ([m e] & -> & [He Hin]%list_elem_of_filter). simpl in *. by subst e.
  - intros Hin. exists (n, T). split; [done|]. by apply list_elem_of_filter.
Qed.

Lemma closed_nodes_of n order :
  nesting [] order = Some [] → n ∈ closed order ↔ n ∈ nodes_of order.
Proof.
  intros Hn. rewrite elem_of_closed, elem_of_nodes_of. split; intros Hin.
  - destruct (nesting_trailing_leading _ _ _ _ Hn Hin) as [?|?%elem_of_nil];
      done.
  - destruct (nesting_leading_trailing _ _ _ _ Hn Hin) as [?|?%elem_of_nil];
      done.
Qed.

Lemma position_in_closed i order :
  nesting [] order = Some [] → i ∈ order → i.1 ∈ closed order.
Proof.
  intros Hn Hin. destruct i as [m []]; simpl.
  - apply closed_nodes_of; [done|]. by apply elem_of_nodes_of.
  - by apply elem_of_closed.
Qed.

Lemma closed_in_stretch i order :
  nesting [] order = Some [] → i.1 ∈ closed order → i ∈ order.
Proof.
  intros Hn Hin. destruct i as [m []]; simpl in *.
  - apply elem_of_nodes_of. by apply closed_nodes_of.
  - by apply elem_of_closed.
Qed.

(** The subtree of a node of a nested iteration. *)
Lemma subtree_split order n :
  nesting [] order = Some [] → (n, L) ∈ order →
  ∃ pre inner post open,
    order = pre ++ (n, L) :: inner ++ (n, T) :: post
    ∧ nesting [] inner = Some []
    ∧ nesting [] pre = Some open
    ∧ nesting open post = Some [].
Proof.
  intros Hn (pre & rest & ->)%list_elem_of_split.
  rewrite nesting_app in Hn.
  destruct (nesting [] pre) as [open|] eqn:Hpre; [|done]. simpl in Hn.
  destruct (nesting_close n rest [] open [] Hn) as (inner & post & -> & ? & ?).
  { simpl. lia. }
  by exists pre, inner, post, open.
Qed.

Lemma nesting_subtree n inner :
  nesting [] inner = Some [] → nesting [] ((n, L) :: inner ++ [(n, T)]) = Some [].
Proof.
  intros Hn. simpl. rewrite nesting_app.
  assert (Hframe : ∀ order open open' below,
    nesting open order = Some open' →
    nesting (open ++ below) order = Some (open' ++ below)).
  { clear. induction order as [|[m []] order IH]; intros open open' below; simpl.
    - by intros [= <-].
    - intros Hn. by apply (IH (m :: open)).
    - destruct open as [|k open]; [done|]. simpl.
      case_decide; [|done]. apply IH. }
  pose proof (Hframe inner [] [] [n] Hn) as Hinner. simpl in Hinner.
  rewrite Hinner. simpl. by rewrite decide_True.
Qed.

Section forest.
Context {V : Type}.
Implicit Types (f : forest V).

Lemma filter_all {A} (P : A → Prop) `{∀ x, Decision (P x)} (l : list A) :
  (∀ x, x ∈ l → P x) → filter P l = l.
Proof.
  induction l as [|x l IH]; intros Hall; [done|].
  rewrite filter_cons_True by (apply Hall; by left).
  rewrite IH; [done|]. intros y ?. apply Hall. by right.
Qed.

Lemma filter_none {A} (P : A → Prop) `{∀ x, Decision (P x)} (l : list A) :
  (∀ x, x ∈ l → ¬ P x) → filter P l = [].
Proof.
  induction l as [|x l IH]; intros Hall; [done|].
  rewrite filter_cons_False by (apply Hall; by left).
  apply IH. intros y ?. apply Hall. by right.
Qed.

Lemma erase_nodes_spec ns : ∀ f,
  fullorder (foldl (λ f n, erase_node n f) f ns)
  = filter (λ i, i.1 ∉ ns) (fullorder f)
  ∧ (∀ m, content (foldl (λ f n, erase_node n f) f ns) m
          = if decide (m ∈ ns) then None else content f m)
  ∧ next_cell (foldl (λ f n, erase_node n f) f ns) = next_cell f.
Proof.
  induction ns as [|n ns IH]; intros f; cbn [foldl].
  - split; [|split; [|done]].
    + symmetry. apply filter_all. intros i _. apply not_elem_of_nil.
    + intros m. case_decide as Hm; [|done]. by apply elem_of_nil in Hm.
  - destruct (IH (erase_node n f)) as (Horder & Hcontent & Hnext).
    rewrite Horder, Hnext. split; [|split; [|done]].
    + simpl. rewrite list_filter_filter. apply list_filter_iff.
      intros i. rewrite not_elem_of_cons. tauto.
    + intros m. rewrite Hcontent. simpl.
      destruct (decide (m = n)) as [->|Hne].
      * rewrite (decide_True (P:=n ∈ n :: ns)) by by left.
        by case_decide.
      * destruct (decide (m ∈ ns)).
        -- rewrite decide_True; [done|]. by right.
        -- rewrite decide_False; [done|]. rewrite not_elem_of_cons. tauto.
Qed.

Lemma erase_walk_nested range : ∀ open open' f,
  nesting open range = Some open' →
  erase_walk (length open) range f
  = foldl (λ f n, erase_node n f) f (closed range).
Proof.
  induction range as [|[n []] range IH]; intros open open' f;
    cbn [nesting erase_walk].
  - done.
  - intros Hn. rewrite closed_leading. by rewrite (IH (n :: open) open').
  - destruct open as [|m open]; [done|]. case_decide; [subst m|done].
    intros Hn. rewrite closed_trailing. cbn [length Nat.pred foldl].
    by rewrite (IH open open' _ Hn).
Qed.

Lemma filter_out_stretch pre range post :
  NoDup (pre ++ range ++ post) → nesting [] range = Some [] →
  filter (λ i, i.1 ∉ closed range) (pre ++ range ++ post) = pre ++ post.
Proof.
  intros Hdup Hn.
  apply NoDup_app in Hdup as (_ & Hpre & Hdup).
  apply NoDup_app in Hdup as (_ & Hpost & _).
  rewrite !filter_app.
  rewrite (filter_all _ pre), (filter_none _ range), (filter_all _ post).
  - done.
  - intros i Hi Hin%(closed_in_stretch _ _ Hn). by apply (Hpost i Hin).
  - intros i Hi Hnot. apply Hnot. by apply position_in_closed.
  - intros i Hi Hin%(closed_in_stretch _ _ Hn).
    apply (Hpre i Hi). apply elem_of_app. by left.
Qed.

(** The ranges of a subtree, read off the iteration. *)
Lemma subtree_ranges pre n inner post :
  NoDup (pre ++ (n, L) :: inner ++ (n, T) :: post) →
  inside n (pre ++ (n, L) :: inner ++ (n, T) :: post) = inner
  ∧ range (Some (n, L))
      (next (pre ++ (n, L) :: inner ++ (n, T) :: post) (n, T))
      (pre ++ (n, L) :: inner ++ (n, T) :: post)
    = (n, L) :: inner ++ [(n, T)]
  ∧ until (Some (n, T)) (pre ++ (n, L) :: inner ++ (n, T) :: post)
    = pre ++ (n, L) :: inner
  ∧ seek (n, T) (pre ++ (n, L) :: inner ++ (n, T) :: post) = (n, T) :: post.
Proof.
  intros Hdup.
  assert (HL : (n, L) ∉ pre).
  { apply NoDup_app in Hdup as (_ & H & _). intros Hin.
    apply (H _ Hin). by left. }
  assert (HT : (n, T) ∉ pre ++ (n, L) :: inner).
  { rewrite (app_comm_cons inner), app_assoc in Hdup.
    apply NoDup_app in Hdup as (_ & H & _). intros Hin.
    apply (H _ Hin). by left. }
  assert (HTi : (n, T) ∉ inner).
  { intros Hin. apply HT, elem_of_app. right. by right. }
  assert (Hseek : seek (n, T) (pre ++ (n, L) :: inner ++ (n, T) :: post)
                  = (n, T) :: post).
  { rewrite (app_comm_cons inner), app_assoc. by apply seek_app. }
  repeat split.
  - unfold inside. rewrite seek_app by done. simpl. by apply until_app.
  - unfold range, next. rewrite Hseek, seek_app by done.
    destruct post as [|j post].
    + by rewrite until_end.
    + assert (Hj : j ∉ (n, L) :: inner ++ [(n, T)]).
      { apply NoDup_app in Hdup as (_ & _ & Hdup).
        assert (Hdup' : NoDup (((n, L) :: inner ++ [(n, T)]) ++ j :: post)).
        { simpl. by rewrite <- app_assoc. }
        apply NoDup_app in Hdup' as (_ & H & _).
        intros Hin. apply (H _ Hin). by left. }
      etransitivity; [|apply (until_app j _ post Hj)].
      f_equal. simpl. by rewrite <- app_assoc.
  - rewrite (app_comm_cons inner), app_assoc. by apply until_app.
  - done.
Qed.

(** Erasing the range from the leading edge of a node to one past its
    trailing edge. *)
Lemma erase_subtree_range (f : forest V) (pos : position) :
  well_formed f → pos ∈ fullorder f →
  let n := pos.1 in
  let below := descendants n (fullorder f) in
  let erased :=
    range (Some (leading_of pos)) (next (fullorder f) (trailing_of pos))
      (fullorder f) in
  let f' := (erase (Some (leading_of pos))
               (next (fullorder f) (trailing_of pos)) f).2 in
  (∃ pre post,
     fullorder f = pre ++ erased ++ post ∧ fullorder f' = pre ++ post)
  ∧ nodes_of erased = n :: below
  ∧ size f' + S (length below) = size f
  ∧ (∀ m, m ∈ n :: below → content f' m = None ∧ ∀ e, (m, e) ∉ fullorder f')
  ∧ (∀ i, i ∈ fullorder f → i.1 ∉ n :: below →
          i ∈ fullorder f' ∧ content f' i.1 = content f i.1)
  ∧ well_formed f'.
Proof.
  intros (Hnest & Hdup & Hcells) Hpos n below erased f'.
  assert (HnL : (n, L) ∈ fullorder f).
  { destruct pos as [k []]; [done|]. simpl in *.
    by destruct (nesting_trailing_leading _ _ _ _ Hnest Hpos)
      as [?|?%elem_of_nil]. }
  destruct (subtree_split _ _ Hnest HnL)
    as (pre & inner & post & open & Horder & Hinner & Hpre & Hpost).
  assert (Hbelow : below = nodes_of inner).
  { unfold below, descendants. rewrite Horder in Hdup |- *.
    destruct (subtree_ranges _ _ _ _ Hdup) as (Hinside & _).
    apply (f_equal nodes_of). exact Hinside. }
  assert (Herased : erased = (n, L) :: inner ++ [(n, T)]).
  { unfold erased. rewrite Horder in Hdup |- *.
    destruct (subtree_ranges _ _ _ _ Hdup) as (_ & Hrange & _).
    exact Hrange. }
  assert (Hnested : nesting [] erased = Some []).
  { rewrite Herased. by apply nesting_subtree. }
  assert (Hsplit : fullorder f = pre ++ erased ++ post).
  { rewrite Horder, Herased. simpl. by rewrite <- app_assoc. }
  assert (Hnodes : nodes_of erased = n :: below).
  { rewrite Herased, nodes_of_leading, nodes_of_app, nodes_of_trailing.
    unfold nodes_of at 2. simpl. by rewrite app_nil_r, Hbelow. }
  assert (Hin : ∀ m, m ∈ n :: below ↔ m ∈ closed erased).
  { intros m. by rewrite <- Hnodes, closed_nodes_of. }
  destruct (erase_nodes_spec (closed erased) f) as (Hf' & Hcontent & Hnext).
  assert (Hwalk : f' = foldl (λ f n, erase_node n f) f (closed erased)).
  { unfold f', erase. simpl. fold erased.
    by rewrite (erase_walk_nested erased [] []). }
  rewrite <- Hwalk in Hf', Hcontent, Hnext.
  assert (Hrest : fullorder f' = pre ++ post).
  { rewrite Hf', Hsplit. apply filter_out_stretch; [|done].
    by rewrite <- Hsplit. }
  split; [by exists pre, post|]. split; [done|]. split; [|split; [|split]].
  - unfold size. rewrite Hrest, Hsplit, !nodes_of_app, Hnodes.
    rewrite !length_app. simpl. lia.
  - intros m Hm. apply Hin in Hm. split.
    + rewrite Hcontent. by rewrite decide_True.
    + intros e. rewrite Hf'. intros [Hnot _]%list_elem_of_filter. done.
  - intros i Hi Hnot. rewrite Hin in Hnot. split.
    + rewrite Hf'. by apply list_elem_of_filter.
    + rewrite Hcontent. by rewrite decide_False.
  - repeat split.
    + rewrite Hrest, nesting_app, Hpre. done.
    + rewrite Hf'. by apply NoDup_filter.
    + rewrite Hf', Hnext. rewrite Forall_forall in Hcells |- *.
      intros i [_ Hi]%list_elem_of_filter. by apply Hcells.
Qed.


Lemma top_level_app inner rest : ∀ open open',
  nesting open inner = Some open' →
  top_level (length open) (inner ++ rest)
  = top_level (length open) inner ++ top_level (length open') rest.
Proof.
  induction inner as [|[n []] inner IH]; intros open open';
    cbn [nesting top_level app].
  - by intros [= <-].
  - intros Hn. specialize (IH (n :: open) open' Hn). cbn [length] in IH.
    destruct (length open); by rewrite IH.
  - destruct open as [|m open]; [done|]. case_decide; [|done].
    intros Hn. apply (IH open open' Hn).
Qed.

(** [insert] at the trailing edge of a node of the forest: the new node
    becomes the last child. *)
Lemma insert_last_child (f : forest V) (p : nat) (x : V) :
  well_formed f → (p, T) ∈ fullorder f →
  let c := next_cell f in
  let f' := (insert (Some (p, T)) x f).2 in
  (insert (Some (p, T)) x f).1 = (c, L)
  ∧ children p (fullorder f') = children p (fullorder f) ++ [c]
  ∧ content f' c = Some x
  ∧ (∀ m, m ≠ c → content f' m = content f m)
  ∧ next_cell f' = S c
  ∧ size f' = S (size f)
  ∧ (p, T) ∈ fullorder f'
  ∧ well_formed f'.
Proof.
  intros (Hnest & Hdup & Hcells) HpT c f'.
  assert (HpL : (p, L) ∈ fullorder f).
  { by destruct (nesting_trailing_leading _ _ _ _ Hnest HpT)
      as [?|?%elem_of_nil]. }
  destruct (subtree_split _ _ Hnest HpL)
    as (pre & inner & post & open & Horder & Hinner & Hpre & Hpost).
  assert (Hfresh : ∀ e, (c, e) ∉ fullorder f).
  { intros e Hin. rewrite Forall_forall in Hcells.
    specialize (Hcells _ Hin). simpl in Hcells. unfold c in Hcells. lia. }
  assert (Horder' : fullorder f'
    = pre ++ (p, L) :: (inner ++ [(c, L); (c, T)]) ++ (p, T) :: post).
  { unfold f', insert; simpl. rewrite Horder in Hdup |- *.
    destruct (subtree_ranges _ _ _ _ Hdup) as (_ & _ & Huntil & Hseek).
    rewrite Huntil, Hseek.
    rewrite <- ?app_assoc. simpl. by rewrite <- ?app_assoc. }
  assert (Hdup' : NoDup (fullorder f')).
  { rewrite Horder'. rewrite Horder in Hdup, Hfresh.
    assert (Heq : pre ++ (p, L) :: (inner ++ [(c, L); (c, T)]) ++ (p, T) :: post
                  = (pre ++ (p, L) :: inner)
                    ++ (c, L) :: (c, T) :: (p, T) :: post).
    { rewrite <- ?app_assoc. simpl. by rewrite <- ?app_assoc. }
    rewrite Heq.
    assert (Heq0 : pre ++ (p, L) :: inner ++ (p, T) :: post
                   = (pre ++ (p, L) :: inner) ++ (p, T) :: post).
    { by rewrite <- ?app_assoc. }
    rewrite Heq0 in Hdup, Hfresh.
    apply NoDup_app in Hdup as (Hd1 & Hd2 & Hd3).
    apply NoDup_app. split; [done|]. split.
    - intros i Hi. rewrite !not_elem_of_cons. repeat split.
      + intros ->. apply (Hfresh L), elem_of_app. by left.
      + intros ->. apply (Hfresh T), elem_of_app. by left.
      + intros ->. apply (Hd2 _ Hi). by left.
      + intros Hin. apply (Hd2 _ Hi). by right.
    - constructor; [|constructor; [|done]].
      + rewrite not_elem_of_cons. split; [done|].
        intros Hin. apply (Hfresh L), elem_of_app. by right.
      + intros Hin. apply (Hfresh T), elem_of_app. by right. }
  assert (Hinside : inside p (fullorder f) = inner).
  { rewrite Horder in Hdup |- *.
    by destruct (subtree_ranges _ _ _ _ Hdup) as (? & _). }
  assert (Hinside' : inside p (fullorder f') = inner ++ [(c, L); (c, T)]).
  { rewrite Horder' in Hdup' |- *.
    by destruct (subtree_ranges _ _ _ _ Hdup') as (? & _). }
  split; [done|]. split; [|split; [|split; [|split; [done|split; [|split]]]]].
  - unfold children. rewrite Hinside', Hinside.
    by rewrite (top_level_app inner _ [] [] Hinner).
  - unfold f', insert; simpl. by rewrite decide_True.
  - intros m Hm. unfold f', insert; simpl. by rewrite decide_False.
  - unfold size. rewrite Horder', Horder.
    rewrite !nodes_of_app, !nodes_of_leading, !nodes_of_app,
      !nodes_of_leading, !nodes_of_trailing, !length_app.
    simpl. rewrite !length_app. simpl. lia.
  - rewrite Horder'. rewrite elem_of_app. right. right.
    rewrite elem_of_app. right. by left.
  - repeat split; [|done|].
    + rewrite Horder'. rewrite Horder in Hnest.
      assert (Heq0 : pre ++ (p, L) :: inner ++ (p, T) :: post
                     = (pre ++ (p, L) :: inner) ++ (p, T) :: post).
      { by rewrite <- ?app_assoc. }
      rewrite Heq0, nesting_app in Hnest.
      assert (Heq : pre ++ (p, L) :: (inner ++ [(c, L); (c, T)]) ++ (p, T) :: post
                    = (pre ++ (p, L) :: inner)
                      ++ (c, L) :: (c, T) :: (p, T) :: post).
      { rewrite <- ?app_assoc. simpl. by rewrite <- ?app_assoc. }
      rewrite Heq, nesting_app.
      destruct (nesting [] (pre ++ (p, L) :: inner)) as [st|]; [|done].
      simpl in *. by rewrite decide_True.
    + rewrite Forall_forall in Hcells |- *.
      intros i Hi. rewrite Horder' in Hi. change (next_cell f') with (S c).
      assert (Hcase : i ∈ fullorder f ∨ i.1 = c).
      { rewrite Horder. revert Hi.
        rewrite !elem_of_app, !elem_of_cons, !elem_of_app, !elem_of_cons,
          elem_of_nil.
        intros [?|[?|[[?|[->|[->|[]]]]|[?|?]]]]; auto 10. }
      destruct Hcase as [Hi'| ->]; [|lia].
      specialize (Hcells _ Hi'). fold c in Hcells. lia.
Qed.

End forest.

Section nodes.
Context {region_t : Type}.
Implicit Types (f : forest (tree_node region_t)).
Implicit Types (this : owning_base_node region_t).

(** C8. Subtree erase. In a forest as the container keeps it, let
    [position] be on a node [n] of the forest with [M] nodes below it. Then
    [erase_with_subtree] cuts out of the iteration exactly the range from the
    leading edge of [n] to one past its trailing edge; the nodes of that range
    are [n] and the [M] nodes below it, so the size of the forest goes down by
    [M + 1]; these nodes have no edge and no value left, and every other
    position of the forest is still there, in the same order, with the value
    it had; the forest is again as the container keeps it. *)
Theorem erase_with_subtree_erases_subtree f (pos : position) :
  well_formed f → pos ∈ fullorder f →
  let n := pos.1 in
  let below := descendants n (fullorder f) in
  let erased :=
    range (Some (leading_of pos)) (next (fullorder f) (trailing_of pos))
      (fullorder f) in
  let f' := (erase_with_subtree f pos).2 in
  (∃ pre post,
     fullorder f = pre ++ erased ++ post ∧ fullorder f' = pre ++ post)
  ∧ nodes_of erased = n :: below
  ∧ size f' + S (length below) = size f
  ∧ (∀ m, m ∈ n :: below → content f' m = None ∧ ∀ e, (m, e) ∉ fullorder f')
  ∧ (∀ i, i ∈ fullorder f → i.1 ∉ n :: below →
          i ∈ fullorder f' ∧ content f' i.1 = content f i.1)
  ∧ well_formed f'.
Proof. apply erase_subtree_range. Qed.

Lemma make_children_spec (name : string) this p K : ∀ f,
  well_formed f → self_ this = (p, T) → (p, T) ∈ fullorder f →
  let made := make_children K name this f in
  made.1 = seq (next_cell f) K
  ∧ next_cell made.2 = next_cell f + K
  ∧ children p (fullorder made.2) = children p (fullorder f) ++ made.1
  ∧ (∀ c, c ∈ made.1 →
       content made.2 c
       = Some (a_tree_base_node {| region_ := region this; name_ := name |}))
  ∧ (∀ m, m < next_cell f → content made.2 m = content f m)
  ∧ size made.2 = size f + K
  ∧ well_formed made.2.
Proof.
  induction K as [|K IH]; intros f Hwf Hself Hp; cbn [make_children].
  - simpl. rewrite app_nil_r, !Nat.add_0_r.
    split; [done|]. split; [done|]. split; [done|].
    split; [by intros c ?%elem_of_nil|]. split; [done|]. by split.
  - unfold make_child, add_child. rewrite Hself.
    pose proof (insert_last_child f p
      (a_tree_base_node {| region_ := region this; name_ := name |}) Hwf Hp)
      as (Hit & Hkids & Hnew & Hold & Hnext & Hsize & Hp' & Hwf').
    destruct (insert _ _ f) as [child_it f1]. simpl in Hit. subst child_it.
    cbn [snd] in *.
    specialize (IH f1 Hwf' Hself Hp').
    destruct (make_children K name this f1) as [rest f2]. cbn [fst snd] in *.
    destruct IH as (Hrest & Hnext2 & Hkids2 & Hnew2 & Hold2 & Hsize2 & Hwf2).
    rewrite Hnext in *. unfold trailing_of. cbn [fst].
    split; [by rewrite Hrest|]. split; [lia|]. split; [|split; [|split; [|split]]].
    + rewrite Hkids2, Hkids. by rewrite <- app_assoc.
    + intros c [->|Hc]%elem_of_cons; [|by apply Hnew2].
      rewrite Hold2 by lia. done.
    + intros m Hm. rewrite Hold2 by lia. apply Hold. lia.
    + lia.
    + done.
Qed.

(** C9. Tree shape. Let [this] be an owning node of a forest as the
    container keeps it, [self_] being its own trailing edge. After [K] calls
    of [make_child] its children are the ones it had, followed by the [K] new
    nodes in the order of the calls (so their number has gone up by one per
    call, and a node that had no child has exactly [K]); the new nodes are
    [K] different ones, the forest has [K] nodes more, and each new node
    holds the region of [this]. *)
Theorem make_child_appends_children (name : string) this f (K : nat) :
  well_formed f → (self_ this).2 = T → self_ this ∈ fullorder f →
  let p := (self_ this).1 in
  let made := make_children K name this f in
  children p (fullorder made.2) = children p (fullorder f) ++ made.1
  ∧ length made.1 = K
  ∧ NoDup made.1
  ∧ length (children p (fullorder made.2))
    = length (children p (fullorder f)) + K
  ∧ (children p (fullorder f) = [] →
     children p (fullorder made.2) = made.1)
  ∧ size made.2 = size f + K
  ∧ (∀ c, c ∈ made.1 → content made.2 c ≫= region_of = Some (region this))
  ∧ well_formed made.2.
Proof.
  intros Hwf HT Hself p made.
  assert (Hself' : self_ this = (p, T)).
  { unfold p. destruct (self_ this) as [q e]. simpl in *. by subst e. }
  rewrite Hself' in Hself.
  destruct (make_children_spec name this p K f Hwf Hself' Hself)
    as (Hmade & _ & Hkids & Hnew & _ & Hsize & Hwf').
  fold made in Hmade, Hkids, Hnew, Hsize, Hwf'.
  split; [done|]. split; [by rewrite Hmade, length_seq|].
  split; [rewrite Hmade; apply NoDup_seq|].
  split; [by rewrite Hkids, length_app, Hmade, length_seq|].
  split; [intros Hnone; by rewrite Hkids, Hnone|].
  split; [done|]. split; [|done].
  intros c Hc. by rewrite (Hnew c Hc).
Qed.
End nodes.

(** The forest that the root owner builds is as the container keeps it,
    and the root has no child yet. *)
Lemma forest_owner_well_formed {region_t} (n : string) (r : region_t) :
  well_formed (forest_owner n r).2
  ∧ self_ (forest_owner n r).1 = (0, T)
  ∧ children 0 (fullorder (forest_owner n r).2) = [].
Proof.
  repeat split; simpl.
  - apply (bool_decide_unpack _). by vm_compute.
  - repeat constructor.
Qed.

Lemma make_child_appends_children_witness :
  let root := (forest_owner (region_t:=nat) "root" 7).1 in
  let f := (forest_owner (region_t:=nat) "root" 7).2 in
  let made := make_children 3 "node" root f in
  children 0 (fullorder made.2) = [1; 2; 3]
  ∧ made.1 = [1; 2; 3]
  ∧ ∀ c, c ∈ made.1 → content made.2 c ≫= region_of = Some 7.
Proof.
  intros root f made.
  destruct (make_child_appends_children "node" root f 3)
    as (Hkids & _ & _ & _ & _ & _ & Hregion & _).
  - apply (forest_owner_well_formed "root" 7).
  - reflexivity.
  - right. left.
  - split; [exact Hkids|]. split; [reflexivity|exact Hregion].
Defined.

Lemma erase_with_subtree_erases_subtree_witness :
  let root := (forest_owner (region_t:=nat) "root" 7).1 in
  let f0 := (forest_owner (region_t:=nat) "root" 7).2 in
  let f1 := (make_children 2 "node" root f0).2 in
  let owner := (make_owner 9 "owner" root f1).1 in
  let f2 := (make_owner 9 "owner" root f1).2 in
  let f3 := (make_children 2 "inner" owner f2).2 in
  let f := (make_child "last" root f3).2 in
  let f' := (erase_with_subtree f (3, T)).2 in
  descendants 3 (fullorder f) = [4; 5]
  ∧ size f' + 3 = size f
  ∧ fullorder f'
    = [(0, L); (1, L); (1, T); (2, L); (2, T); (6, L); (6, T); (0, T)].
Proof.
  intros root f0 f1 owner f2 f3 f f'.
  destruct (erase_with_subtree_erases_subtree f (3, T))
    as (_ & _ & Hsize & _).
  - repeat split.
    + apply (bool_decide_unpack _). by vm_compute.
    + apply (bool_decide_unpack _). by vm_compute.
  - apply (bool_decide_unpack _). by vm_compute.
  - split; [reflexivity|]. split; [exact Hsize|reflexivity].
Defined.

(** *** Further properties of the forest and its nodes *)

Section forest_more.
Context {V : Type}.
Implicit Types (f : forest V).

(** [insert] at a trailing edge of the forest, in terms of the iteration. *)
Lemma insert_order f p (x : V) :
  well_formed f → (p, T) ∈ fullorder f →
  ∃ pre post,
    fullorder f = pre ++ (p, T) :: post
    ∧ fullorder (insert (Some (p, T)) x f).2
      = pre ++ (next_cell f, L) :: (next_cell f, T) :: (p, T) :: post
    ∧ (∀ e, (next_cell f, e) ∉ fullorder f).
Proof.
  intros (Hnest & Hdup & Hcells) (pre & post & Horder)%list_elem_of_split.
  exists pre, post. split; [done|].
  assert (Hpre : (p, T) ∉ pre).
  { rewrite Horder in Hdup. apply NoDup_app in Hdup as (_ & H & _).
    intros Hin. apply (H _ Hin). by left. }
  split.
  - unfold insert; simpl. rewrite Horder.
    by rewrite until_app, seek_app.
  - intros e Hin. rewrite Forall_forall in Hcells.
    specialize (Hcells _ Hin). simpl in Hcells. lia.
Qed.

(** Erasing the subtree of [n], in terms of the iteration. *)
Lemma erase_subtree_explicit f pre n inner post (e : edge) :
  NoDup (fullorder f) →
  fullorder f = pre ++ (n, L) :: inner ++ (n, T) :: post →
  nesting [] inner = Some [] →
  let erased :=
    erase (Some (leading_of (n, e)))
      (next (fullorder f) (trailing_of (n, e))) f in
  fullorder erased.2 = pre ++ post
  ∧ erased.1 = head post
  ∧ (∀ m, content erased.2 m
          = if decide (m ∈ n :: nodes_of inner) then None else content f m)
  ∧ next_cell erased.2 = next_cell f.
Proof.
  intros Hdup Horder Hinner erased.
  pose proof Hdup as Hdup'. rewrite Horder in Hdup'.
  destruct (subtree_ranges _ _ _ _ Hdup') as (_ & Hrange & _ & Hseek).
  set (stretch := (n, L) :: inner ++ [(n, T)]).
  assert (Hnested : nesting [] stretch = Some []) by by apply nesting_subtree.
  assert (Hwalk : erased.2 = foldl (λ f n, erase_node n f) f (closed stretch)).
  { assert (Hr : range (Some (leading_of (n, e)))
                    (next (fullorder f) (trailing_of (n, e))) (fullorder f)
                  = stretch).
    { rewrite Horder. exact Hrange. }
    unfold erased, erase. cbn [snd].
    etransitivity; [apply (f_equal (λ r, erase_walk 0 r f) Hr)|].
    apply (erase_walk_nested stretch [] [] f Hnested). }
  destruct (erase_nodes_spec (closed stretch) f) as (Hf' & Hcontent & Hnext).
  rewrite <- Hwalk in Hf', Hcontent, Hnext.
  assert (Hsplit : fullorder f = pre ++ stretch ++ post).
  { rewrite Horder. unfold stretch. simpl. by rewrite <- app_assoc. }
  split; [|split; [|split; [|done]]].
  - rewrite Hf', Hsplit. apply filter_out_stretch; [|done].
    rewrite Hsplit in Hdup. exact Hdup.
  - unfold erased, erase, next, trailing_of. cbn [fst]. rewrite Horder.
    etransitivity; [apply (f_equal (λ l, match l with
                                         | _ :: j :: _ => Some j
                                         | _ => None
                                         end) Hseek)|].
    by destruct post.
  - intros m. rewrite Hcontent.
    assert (Hiff : m ∈ closed stretch ↔ m ∈ n :: nodes_of inner).
    { rewrite (closed_nodes_of _ _ Hnested). unfold stretch.
      rewrite nodes_of_leading, nodes_of_app, nodes_of_trailing.
      unfold nodes_of at 2. simpl. by rewrite app_nil_r. }
    destruct (decide (m ∈ closed stretch)) as [Hm|Hm].
    + rewrite decide_True; [done|]. by apply Hiff.
    + rewrite decide_False; [done|]. by rewrite <- Hiff.
Qed.

(** A nested iteration without nodes is empty. *)
Lemma nesting_no_nodes order :
  nesting [] order = Some [] → nodes_of order = [] → order = [].
Proof.
  destruct order as [|[m []] order]; simpl; [done| |done].
  intros _. by rewrite nodes_of_leading.
Qed.
End forest_more.

Section nodes_more.
Context {region_t : Type}.
Implicit Types (f : forest (tree_node region_t)).
Implicit Types (this : owning_base_node region_t).

Lemma well_formed_same_order f f' :
  fullorder f' = fullorder f → next_cell f' = next_cell f →
  well_formed f → well_formed f'.
Proof. unfold well_formed. by intros -> ->. Qed.

Lemma add_child_spec this p (child : tree_node region_t) f :
  well_formed f → self_ this = (p, T) → (p, T) ∈ fullorder f →
  let made := add_child this child f in
  made.1 = next_cell f
  ∧ children p (fullorder made.2) = children p (fullorder f) ++ [made.1]
  ∧ children made.1 (fullorder made.2) = []
  ∧ content made.2 made.1 = Some child
  ∧ (∀ m, m ≠ made.1 → content made.2 m = content f m)
  ∧ next_cell made.2 = S (next_cell f)
  ∧ size made.2 = S (size f)
  ∧ (made.1, T) ∈ fullorder made.2
  ∧ (p, T) ∈ fullorder made.2
  ∧ well_formed made.2.
Proof.
  intros Hwf Hself Hp made.
  assert (Hmade : made = (next_cell f, (insert (Some (p, T)) child f).2)).
  { unfold made, add_child. by rewrite Hself. }
  clearbody made. subst made. cbn [fst snd].
  pose proof (insert_last_child f p child Hwf Hp)
    as (_ & Hkids & Hnew & Hold & Hnext & Hsize & Hp' & Hwf').
  destruct (insert_order f p child Hwf Hp)
    as (pre & post & Hord & Horder & Hfresh).
  assert (Hpre : (next_cell f, L) ∉ pre).
  { intros Hin. apply (Hfresh L). rewrite Hord, elem_of_app. by left. }
  split; [done|]. split; [done|]. split.
  { unfold children, inside. rewrite Horder, seek_app by done.
    simpl. by rewrite decide_True. }
  split; [done|]. split; [done|]. split; [done|]. split; [done|].
  split; [|by split].
  rewrite Horder, elem_of_app. right. right. by left.
Qed.

Lemma add_child_forest this p (child : tree_node region_t) f :
  self_ this = (p, T) →
  add_child this child f
  = (next_cell f, (insert (Some (p, T)) child f).2).
Proof. intros Hself. unfold add_child. by rewrite Hself. Qed.

Lemma self_on_trailing_edge this :
  (self_ this).2 = T → self_ this = ((self_ this).1, T).
Proof. destruct (self_ this) as [q e]. simpl. by intros ->. Qed.

Lemma make_owner_spec (r : region_t) (name : string) this p f :
  well_formed f → self_ this = (p, T) → (p, T) ∈ fullorder f →
  let made := make_owner r name this f in
  let slot := next_cell f in
  made.1 = {| base := {| region_ := r; name_ := name |};
              self_ := (slot, T) |}
  ∧ (slot, T) ∈ fullorder made.2
  ∧ content made.2 slot = Some (an_owner_holder (Some made.1))
  ∧ children p (fullorder made.2) = children p (fullorder f) ++ [slot]
  ∧ children slot (fullorder made.2) = []
  ∧ (∀ m, m ≠ slot → content made.2 m = content f m)
  ∧ next_cell made.2 = S slot
  ∧ size made.2 = S (size f)
  ∧ well_formed made.2.
Proof.
  intros Hwf Hself Hp made slot.
  pose proof (insert_last_child f p (an_owner_holder None) Hwf Hp)
    as (_ & Hkids & _ & Hold & Hnext & Hsize & _ & Hwf').
  destruct (insert_order f p (an_owner_holder None) Hwf Hp)
    as (pre & post & Hord & Horder & Hfresh).
  set (f1 := (insert (Some (p, T)) (an_owner_holder None) f).2) in *.
  assert (Hmade : made
    = ({| base := {| region_ := r; name_ := name |}; self_ := (slot, T) |},
       {| fullorder := fullorder f1;
          content := λ m,
            if decide (m = slot)
            then Some (an_owner_holder
                   (Some {| base := {| region_ := r; name_ := name |};
                            self_ := (slot, T) |}))
            else content f1 m;
          next_cell := next_cell f1 |})).
  { unfold made, make_owner. by rewrite Hself. }
  clearbody made. subst made. cbn [fst snd fullorder content next_cell].
  assert (Hpre : (slot, L) ∉ pre).
  { intros Hin. apply (Hfresh L). rewrite Hord, elem_of_app. by left. }
  split; [done|]. split.
  { rewrite Horder, elem_of_app. right. right. by left. }
  split; [by rewrite decide_True|]. split; [done|]. split.
  { unfold children, inside. rewrite Horder, seek_app by done.
    simpl. by rewrite decide_True. }
  split.
  { intros m Hm. rewrite decide_False by done. by apply Hold. }
  split; [done|]. split; [done|].
  by apply (well_formed_same_order f1).
Qed.

(** X13. [make_owner] puts a holder in the forest as the last child of
    [this] and hands the owner to it: the owner's [self_] is the trailing
    edge of the holder, which is in the forest; the holder holds that very
    owner, and so answers with the region given; the holder has no child,
    every other node holds what it held, and the forest, one node larger, is
    again as the container keeps it. *)
Theorem make_owner_inserts_holder_with_owner
    (r : region_t) (name : string) this f :
  well_formed f → (self_ this).2 = T → self_ this ∈ fullorder f →
  let p := (self_ this).1 in
  let made := make_owner r name this f in
  let slot := (self_ made.1).1 in
  self_ made.1 = (next_cell f, T)
  ∧ self_ made.1 ∈ fullorder made.2
  ∧ content made.2 slot = Some (an_owner_holder (Some made.1))
  ∧ content made.2 slot ≫= region_of = Some r
  ∧ name_ (base made.1) = name
  ∧ children p (fullorder made.2) = children p (fullorder f) ++ [slot]
  ∧ children slot (fullorder made.2) = []
  ∧ (∀ m, m ≠ slot → content made.2 m = content f m)
  ∧ size made.2 = S (size f)
  ∧ well_formed made.2.
Proof.
  intros Hwf HT Hself p made slot.
  pose proof (self_on_trailing_edge this HT) as Hself'. fold p in Hself'.
  rewrite Hself' in Hself.
  destruct (make_owner_spec r name this p f Hwf Hself' Hself)
    as (Hmade & Hin & Hheld & Hkids & Hleaf & Hold & _ & Hsize & Hwf').
  fold made in Hmade, Hin, Hheld, Hkids, Hleaf, Hold, Hsize, Hwf'.
  assert (Hslot : slot = next_cell f) by (unfold slot; by rewrite Hmade).
  rewrite Hslot.
  split; [by rewrite Hmade|]. split; [by rewrite Hmade|].
  split; [done|]. split; [by rewrite Hheld, Hmade|].
  split; [by rewrite Hmade|]. by repeat (split; [done|]).
Qed.

(** X14. An owner made by [make_owner] owns the children it makes. After
    [K] calls of [make_child] on it, the children of its holder are the [K]
    new nodes in the order of the calls, each of them in the region the
    owner was given (not the one of the node that made the owner); the
    holder still holds the owner, and the forest has [K + 1] nodes more. *)
Theorem made_owner_owns_its_children
    (r : region_t) (name child_name : string) this f (K : nat) :
  well_formed f → (self_ this).2 = T → self_ this ∈ fullorder f →
  let owner := (make_owner r name this f).1 in
  let f1 := (make_owner r name this f).2 in
  let made := make_children K child_name owner f1 in
  let slot := (self_ owner).1 in
  children slot (fullorder made.2) = made.1
  ∧ made.1 = seq (S (next_cell f)) K
  ∧ (∀ c, c ∈ made.1 → content made.2 c ≫= region_of = Some r)
  ∧ content made.2 slot = Some (an_owner_holder (Some owner))
  ∧ size made.2 = S (size f) + K
  ∧ well_formed made.2.
Proof.
  intros Hwf HT Hself owner f1 made slot.
  pose proof (self_on_trailing_edge this HT) as Hself'.
  rewrite Hself' in Hself.
  destruct (make_owner_spec r name this _ f Hwf Hself' Hself)
    as (Howner & Hin & Hheld & _ & Hleaf & _ & Hnext & Hsize & Hwf1).
  fold owner in Howner, Hheld. fold f1 in Hin, Hheld, Hleaf, Hnext, Hsize, Hwf1.
  assert (Hslot : self_ owner = (next_cell f, T)) by by rewrite Howner.
  assert (Hregion : region owner = r) by by rewrite Howner.
  destruct (make_children_spec child_name owner (next_cell f) K f1
              Hwf1 Hslot Hin)
    as (Hmade & _ & Hkids & Hnew & Hold & Hsize' & Hwf').
  fold made in Hmade, Hkids, Hnew, Hold, Hsize', Hwf'.
  unfold slot. rewrite Hslot. cbn [fst].
  split; [by rewrite Hkids, Hleaf|].
  split; [by rewrite Hmade, Hnext|].
  split. { intros c Hc. rewrite (Hnew c Hc). simpl. by rewrite Hregion. }
  split. { rewrite Hold by lia. done. }
  split; [lia|done].
Qed.

(** X15. The factories of an owning node. Each of [make_child],
    [make_child_named] and [new_node], with or without a region, inserts
    one node as the last child of [this]: a node that was not in the
    forest, without children, with the name given and in the region given,
    or in the region of [this] where none is given. Nothing else changes
    hands, and the forest, one node larger, is as the container keeps
    it. *)
Theorem factories_insert_one_last_child
    (r r' : region_t) (name : string) this f
    (make : owning_base_node region_t → forest (tree_node region_t)
            → nat * forest (tree_node region_t)) :
  (make, r') ∈ [(make_child name, region this);
                (make_child_named name, region this);
                (new_node name, region this);
                (make_child_in r name, r);
                (make_child_named_in r name, r);
                (new_node_in r name, r)] →
  well_formed f → (self_ this).2 = T → self_ this ∈ fullorder f →
  let p := (self_ this).1 in
  let made := make this f in
  (∀ e, (made.1, e) ∉ fullorder f)
  ∧ children p (fullorder made.2) = children p (fullorder f) ++ [made.1]
  ∧ children made.1 (fullorder made.2) = []
  ∧ content made.2 made.1
    = Some (a_tree_base_node {| region_ := r'; name_ := name |})
  ∧ (∀ m, m ≠ made.1 → content made.2 m = content f m)
  ∧ size made.2 = S (size f)
  ∧ well_formed made.2.
Proof.
  intros Hmake Hwf HT Hself p made.
  pose proof (self_on_trailing_edge this HT) as Hself'. fold p in Hself'.
  rewrite Hself' in Hself.
  assert (Hadd : made
    = add_child this
        (a_tree_base_node {| region_ := r'; name_ := name |}) f).
  { unfold made. repeat (apply elem_of_cons in Hmake as [[= -> ->]|Hmake];
      [reflexivity|]). by apply elem_of_nil in Hmake. }
  clearbody made. subst made.
  destruct (add_child_spec this p
              (a_tree_base_node {| region_ := r'; name_ := name |}) f
              Hwf Hself' Hself)
    as (Hit & Hkids & Hleaf & Hnew & Hold & _ & Hsize & _ & _ & Hwf').
  split.
  { intros e Hin. rewrite Hit in Hin. destruct Hwf as (_ & _ & Hcells).
    rewrite Forall_forall in Hcells. specialize (Hcells _ Hin).
    simpl in Hcells. lia. }
  by repeat (split; [done|]).
Qed.

(** X16. What [erase_with_subtree] returns. The forest is the positions
    before the node, the node with what is inside it, and the positions
    after it; the erased forest is the first and the last of these, and the
    iterator returned is on the first position after the node, or the end if
    there is none. A position returned is in the erased forest and belongs
    to no erased node. *)
Theorem erase_with_subtree_returns_following f (pos : position) :
  well_formed f → pos ∈ fullorder f →
  let erased := erase_with_subtree f pos in
  (∃ pre inner post,
     fullorder f = pre ++ (pos.1, L) :: inner ++ (pos.1, T) :: post
     ∧ fullorder erased.2 = pre ++ post
     ∧ erased.1 = head post)
  ∧ (∀ j, erased.1 = Some j →
       j ∈ fullorder erased.2
       ∧ j.1 ∉ pos.1 :: descendants pos.1 (fullorder f)).
Proof.
  intros Hwf Hpos erased.
  pose proof (erase_subtree_range f pos Hwf Hpos)
    as (_ & _ & _ & Hgone & _ & _).
  destruct Hwf as (Hnest & Hdup & Hcells).
  assert (HnL : (pos.1, L) ∈ fullorder f).
  { destruct pos as [k []]; [done|]. simpl in *.
    by destruct (nesting_trailing_leading _ _ _ _ Hnest Hpos)
      as [?|?%elem_of_nil]. }
  destruct (subtree_split _ _ Hnest HnL)
    as (pre & inner & post & open & Horder & Hinner & _ & _).
  destruct (erase_subtree_explicit f pre pos.1 inner post pos.2
              Hdup Horder Hinner) as (Hf' & Hit & _ & _).
  assert (Hsame : erase (Some (leading_of (pos.1, pos.2)))
                    (next (fullorder f) (trailing_of (pos.1, pos.2))) f
                  = erased) by done.
  rewrite Hsame in Hf', Hit.
  assert (Hf'' : fullorder (erase (Some (leading_of pos))
                   (next (fullorder f) (trailing_of pos)) f).2
                 = pre ++ post) by exact Hf'.
  split; [by exists pre, inner, post|].
  intros j Hj. rewrite Hit in Hj.
  assert (Hin : j ∈ fullorder erased.2).
  { rewrite Hf', elem_of_app. right.
    destruct post as [|k post]; [done|]. injection Hj as ->. by left. }
  split; [done|]. intros Hsub.
  destruct (Hgone j.1 Hsub) as [_ Hnone]. apply (Hnone j.2).
  destruct j as [m e]. exact Hin.
Qed.

(** X17. Erasing the node that everything hangs on empties the forest.
    If every node of the forest is [position]'s node or below it, then
    after [erase_with_subtree] the forest has no position left, and the
    iterator returned is the end. *)
Theorem erase_with_subtree_of_root_empties f (pos : position) :
  well_formed f → pos ∈ fullorder f →
  Forall (λ i, i.1 ∈ pos.1 :: descendants pos.1 (fullorder f))
    (fullorder f) →
  let erased := erase_with_subtree f pos in
  fullorder erased.2 = [] ∧ size erased.2 = 0 ∧ erased.1 = None.
Proof.
  intros Hwf Hpos Hall erased.
  pose proof (erase_subtree_range f pos Hwf Hpos)
    as (_ & _ & _ & Hgone & _ & _).
  destruct Hwf as (Hnest & Hdup & Hcells).
  assert (HnL : (pos.1, L) ∈ fullorder f).
  { destruct pos as [k []]; [done|]. simpl in *.
    by destruct (nesting_trailing_leading _ _ _ _ Hnest Hpos)
      as [?|?%elem_of_nil]. }
  destruct (subtree_split _ _ Hnest HnL)
    as (pre & inner & post & open & Horder & Hinner & _ & _).
  destruct (erase_subtree_explicit f pre pos.1 inner post pos.2
              Hdup Horder Hinner) as (Hf' & Hit & _ & _).
  assert (Hsame : erase (Some (leading_of (pos.1, pos.2)))
                    (next (fullorder f) (trailing_of (pos.1, pos.2))) f
                  = erased) by done.
  rewrite Hsame in Hf', Hit.
  assert (Hf'' : fullorder (erase (Some (leading_of pos))
                   (next (fullorder f) (trailing_of pos)) f).2
                 = pre ++ post) by exact Hf'.
  assert (Hempty : pre ++ post = []).
  { destruct (pre ++ post) as [|[m e] rest] eqn:Hrest; [done|].
    assert (Hin : (m, e) ∈ fullorder f).
    { assert (Hin' : (m, e) ∈ pre ++ post) by (rewrite Hrest; by left).
      rewrite Horder. rewrite elem_of_app in Hin'. rewrite elem_of_app.
      destruct Hin' as [?|?]; [by left|].
      right. right. rewrite elem_of_app. right. by right. }
    rewrite Forall_forall in Hall.
    destruct (Hgone m (Hall _ Hin)) as [_ Hnone].
    exfalso. apply (Hnone e). rewrite Hf''. by left. }
  apply app_eq_nil in Hempty as [-> ->].
  split; [done|]. split; [|done].
  unfold size. by rewrite Hf'.
Qed.

(** X18. Making a child and erasing it again leaves the forest as it was:
    the iteration is the one before [make_child], every node holds what it
    held, the new node holds nothing, and the iterator that
    [erase_with_subtree] returns is [self_] of the parent, the position the
    child was inserted in front of. *)
Theorem make_child_then_erase_restores (name : string) this f :
  well_formed f → (self_ this).2 = T → self_ this ∈ fullorder f →
  let made := make_child name this f in
  let erased := erase_with_subtree made.2 (made.1, L) in
  fullorder erased.2 = fullorder f
  ∧ erased.1 = Some (self_ this)
  ∧ content erased.2 made.1 = None
  ∧ (∀ m, m ≠ made.1 → content erased.2 m = content f m)
  ∧ size erased.2 = size f.
Proof.
  intros Hwf HT Hself made erased.
  pose proof (self_on_trailing_edge this HT) as Hself'.
  rewrite Hself' in Hself. set (p := (self_ this).1) in *.
  set (child := a_tree_base_node
                  {| region_ := region this; name_ := name |}).
  assert (Hmade : made = (next_cell f, (insert (Some (p, T)) child f).2)).
  { unfold made, make_child. by apply add_child_forest. }
  pose proof (insert_last_child f p child Hwf Hself)
    as (_ & _ & _ & Hold & _ & _ & _ & (_ & Hdup' & _)).
  destruct (insert_order f p child Hwf Hself)
    as (pre & post & Hord & Horder & _).
  set (f1 := (insert (Some (p, T)) child f).2) in *.
  assert (Herased : erased
    = erase (Some (leading_of (next_cell f, L)))
        (next (fullorder f1) (trailing_of (next_cell f, L))) f1).
  { unfold erased. by rewrite Hmade. }
  clearbody made erased. subst made erased. cbn [fst snd].
  destruct (erase_subtree_explicit f1 pre (next_cell f) [] ((p, T) :: post) L
              Hdup' Horder eq_refl) as (Hf' & Hit & Hcontent & _).
  split; [by rewrite Hf', Hord|]. split; [by rewrite Hit, Hself'|].
  split. { rewrite Hcontent. by rewrite decide_True by by left. }
  split.
  { intros m Hm. rewrite Hcontent. rewrite decide_False; [by apply Hold|].
    by intros [?|?%elem_of_nil]%elem_of_cons. }
  unfold size. by rewrite Hf', Hord.
Qed.
End nodes_more.

Lemma make_owner_inserts_holder_with_owner_witness :
  let root := (forest_owner (region_t:=nat) "root" 7).1 in
  let f := (forest_owner (region_t:=nat) "root" 7).2 in
  let made := make_owner 9 "owner" root f in
  self_ made.1 = (1, T)
  ∧ content made.2 1 ≫= region_of = Some 9
  ∧ children 0 (fullorder made.2) = [1]
  ∧ size made.2 = 2.
Proof.
  intros root f made.
  destruct (make_owner_inserts_holder_with_owner 9 "owner" root f)
    as (Hself & _ & _ & Hregion & _ & Hkids & _ & _ & Hsize & _).
  - apply (forest_owner_well_formed "root" 7).
  - reflexivity.
  - right. left.
  - split; [exact Hself|]. split; [exact Hregion|].
    split; [exact Hkids|exact Hsize].
Defined.

Lemma made_owner_owns_its_children_witness :
  let root := (forest_owner (region_t:=nat) "root" 7).1 in
  let f := (forest_owner (region_t:=nat) "root" 7).2 in
  let owner := (make_owner 9 "owner" root f).1 in
  let f1 := (make_owner 9 "owner" root f).2 in
  let made := make_children 2 "inner" owner f1 in
  children 1 (fullorder made.2) = made.1
  ∧ made.1 = [2; 3]
  ∧ (∀ c, c ∈ made.1 → content made.2 c ≫= region_of = Some 9)
  ∧ size made.2 = 4.
Proof.
  intros root f owner f1 made.
  destruct (made_owner_owns_its_children 9 "owner" "inner" root f 2)
    as (Hkids & Hmade & Hregion & _ & Hsize & _).
  - apply (forest_owner_well_formed "root" 7).
  - reflexivity.
  - right. left.
  - split; [exact Hkids|]. split; [exact Hmade|].
    split; [exact Hregion|exact Hsize].
Defined.

Lemma factories_insert_one_last_child_witness :
  let root := (forest_owner (region_t:=nat) "root" 7).1 in
  let f := (forest_owner (region_t:=nat) "root" 7).2 in
  let made := new_node_in 9 "plain" root f in
  children 0 (fullorder made.2) = [made.1]
  ∧ content made.2 made.1
    = Some (a_tree_base_node {| region_ := 9; name_ := "plain" |})
  ∧ size made.2 = 2.
Proof.
  intros root f made.
  destruct (factories_insert_one_last_child 9 9 "plain" root f
              (new_node_in 9 "plain"))
    as (_ & Hkids & _ & Hnew & _ & Hsize & _).
  - do 5 right. left.
  - apply (forest_owner_well_formed "root" 7).
  - reflexivity.
  - right. left.
  - split; [exact Hkids|]. split; [exact Hnew|exact Hsize].
Defined.

Lemma erase_with_subtree_returns_following_witness :
  let root := (forest_owner (region_t:=nat) "root" 7).1 in
  let f0 := (forest_owner (region_t:=nat) "root" 7).2 in
  let f := (make_children 3 "node" root f0).2 in
  let erased := erase_with_subtree f (2, L) in
  erased.1 = Some (3, L)
  ∧ ∀ j, erased.1 = Some j →
      j ∈ fullorder erased.2 ∧ j.1 ∉ 2 :: descendants 2 (fullorder f).
Proof.
  intros root f0 f erased.
  destruct (erase_with_subtree_returns_following f (2, L))
    as (_ & Hvalid).
  - repeat split.
    + apply (bool_decide_unpack _). by vm_compute.
    + apply (bool_decide_unpack _). by vm_compute.
  - apply (bool_decide_unpack _). by vm_compute.
  - split; [reflexivity|exact Hvalid].
Defined.

Lemma erase_with_subtree_of_root_empties_witness :
  let root := (forest_owner (region_t:=nat) "root" 7).1 in
  let f0 := (forest_owner (region_t:=nat) "root" 7).2 in
  let owner := (make_owner 9 "owner" root f0).1 in
  let f1 := (make_owner 9 "owner" root f0).2 in
  let f2 := (make_children 2 "inner" owner f1).2 in
  let f := (make_child "last" root f2).2 in
  let erased := erase_with_subtree f (self_ root) in
  size f = 5 ∧ fullorder erased.2 = [] ∧ erased.1 = None.
Proof.
  intros root f0 owner f1 f2 f erased.
  destruct (erase_with_subtree_of_root_empties f (self_ root))
    as (Hempty & _ & Hend).
  - repeat split.
    + apply (bool_decide_unpack _). by vm_compute.
    + apply (bool_decide_unpack _). by vm_compute.
  - apply (bool_decide_unpack _). by vm_compute.
  - apply (bool_decide_unpack _). by vm_compute.
  - split; [reflexivity|]. split; [exact Hempty|exact Hend].
Defined.

Lemma make_child_then_erase_restores_witness :
  let root := (forest_owner (region_t:=nat) "root" 7).1 in
  let f0 := (forest_owner (region_t:=nat) "root" 7).2 in
  let f := (make_children 2 "node" root f0).2 in
  let made := make_child "more" root f in
  let erased := erase_with_subtree made.2 (made.1, L) in
  made.1 = 3
  ∧ fullorder erased.2 = fullorder f
  ∧ erased.1 = Some (0, T)
  ∧ size erased.2 = 3.
Proof.
  intros root f0 f made erased.
  destruct (make_child_then_erase_restores "more" root f)
    as (Horder & Hit & _ & _ & Hsize).
  - repeat split.
    + apply (bool_decide_unpack _). by vm_compute.
    + apply (bool_decide_unpack _). by vm_compute.
  - reflexivity.
  - apply (bool_decide_unpack _). by vm_compute.
  - split; [reflexivity|]. split; [exact Horder|].
    split; [exact Hit|exact Hsize].
Defined.

End BaseNodeFacts.
